(** * rclone: entry point, [dedupe] command, mount test helpers and the core
    operations they call

    The development follows the layout of the repository:
    - [fs]: the core package (objects, dedupe, lister, transfers, sync);
    - [cmd]: process-level helpers ([log.Fatal], argument checks);
    - [dedupe]: the [dedupe] subcommand;
    - [rclone]: [main];
    - [go_strings]: the functions of Go's package strings the helpers call;
    - [mount_test]: the helpers of the mount test-suite. *)

From Stdlib Require Import Ascii.
From stdpp Require Import gmap gmultiset strings list pretty sorting.

(** ** Package [fs]: objects and stores *)

Module fs.

(** Modelled from the spec: the hash algorithms every implementation
    supports (package fs itself is not part of the sources). *)
Inductive HashAlgorithm := HashMD5 | HashSHA1.

Global Instance HashAlgorithm_eq_dec : EqDecision HashAlgorithm.
Proof. solve_decision. Defined.

(** Modelled from the spec: the attributes of an Object (the interface
    [fs.Object] is not part of the sources).  Its [remote], the path relative
    to the root, is the key under which a store holds it.  Sizes are in bytes
    (negative: unknown), instants in nanoseconds. *)
Record Object := mkObject {
  o_size : Z;
  o_mod_time : Z;
  o_md5 : string;
  o_sha1 : string
}.

Global Instance Object_eq_dec : EqDecision Object.
Proof. solve_decision. Defined.

Definition digest (a : HashAlgorithm) (o : Object) : string :=
  match a with HashMD5 => o_md5 o | HashSHA1 => o_sha1 o end.

(** Modelled from the spec: a remote whose namespace may hold several
    objects under one name (as Google Drive does): every name maps to the
    objects found under it, in the order the listing enumerates them. *)
Abbreviation Store := (gmap string (list Object)).

Definition objects_at (st : Store) (name : string) : list Object :=
  default [] (st !! name).

Definition name_taken (st : Store) (name : string) : bool :=
  bool_decide (objects_at st name ≠ []).

(** Replace the objects held under a name; a name left without objects is
    removed from the store. *)
Definition set_objects (name : string) (objs : list Object) (st : Store)
  : Store :=
  match objs with
  | [] => delete name st
  | _ => <[name := objs]> st
  end.

(** ** Deduplication *)

(** Modelled from the spec: the modes of [fs.Deduplicate].  The dedupe
    command names [fs.DeduplicateInteractive]; the other five are those of
    its help text. *)
Inductive DeduplicateMode :=
| DeduplicateInteractive
| DeduplicateSkip
| DeduplicateFirst
| DeduplicateNewest
| DeduplicateOldest
| DeduplicateRename.

Global Instance DeduplicateMode_eq_dec : EqDecision DeduplicateMode.
Proof. solve_decision. Defined.

(** Modelled from the spec: the six mode names of [--dedupe-mode]
    (interactive|skip|first|newest|oldest|rename). *)
Definition mode_names : list (string * DeduplicateMode) :=
  [ ("interactive", DeduplicateInteractive);
    ("skip", DeduplicateSkip);
    ("first", DeduplicateFirst);
    ("newest", DeduplicateNewest);
    ("oldest", DeduplicateOldest);
    ("rename", DeduplicateRename) ].

Definition valid_mode_names : list string := mode_names.*1.

Fixpoint assoc {A} (k : string) (l : list (string * A)) : option A :=
  match l with
  | [] => None
  | (k', v) :: l' => if decide (k' = k) then Some v else assoc k l'
  end.

(** Modelled from the spec: the method [DeduplicateMode.Set] of package fs,
    which is not part of the sources: it accepts the six mode names.  It
    returns the parsed mode, or [inl] an error message. *)
Definition DeduplicateMode_Set (s : string) : string + DeduplicateMode :=
  match assoc s mode_names with
  | Some m => inr m
  | None => inl ("Unknown mode for dedupe " +:+ s)
  end.

(** Modelled from the spec: what a dedupe run does to the outside world, in
    order: log lines, prompts, and the destructive calls on the backend. *)
Inductive Event :=
| ELog (msg : string)
| EPrompt (question : string)
| EDelete (name : string) (o : Object)
| EMove (name : string) (o : Object) (newName : string).


(** Modelled from the spec: step 3 of the dedupe algorithm, "partition by
    hash".  Partitions are kept in the order their digest is first met, the
    members of a partition in enumeration order. *)
Fixpoint add_to_partition (o : Object) (ps : list (string * list Object))
  : list (string * list Object) :=
  match ps with
  | [] => [(o_md5 o, [o])]
  | (h, os) :: ps' =>
      if decide (h = o_md5 o) then (h, os ++ [o]) :: ps'
      else (h, os) :: add_to_partition o ps'
  end.

Definition partition_by_md5 (objs : list Object) : list (string * list Object) :=
  foldl (λ ps o, add_to_partition o ps) [] objs.

(** Modelled from the spec: step 4, "for each partition of size > 1 ...
    silently delete all but one (keep the first encountered)".  Returns the
    survivors, the deleted objects and the events (log lines and deletes,
    never a prompt). *)
Definition partition_keep (p : string * list Object) : list Object :=
  take 1 p.2.

Definition partition_drop (p : string * list Object) : list Object :=
  drop 1 p.2.

Definition partition_events (name : string) (p : string * list Object)
  : list Event :=
  match partition_drop p with
  | [] => []
  | d :: ds =>
      ELog (name +:+ ": Deleting " +:+ pretty (length (d :: ds)) +:+ "/"
            +:+ pretty (length p.2) +:+ " identical duplicates (md5sum "
            +:+ p.1 +:+ ")")
      :: (EDelete name <$> (d :: ds))
  end.

(** The outcome of the silent step on one group. *)
Record Identical := mkIdentical {
  survivors : list Object;
  deleted : list Object;
  silent_events : list Event
}.

(** Modelled from the spec: steps 3 and 4 on the group [objs] found under
    [name]. *)
Definition dedupeDeleteIdentical (name : string) (objs : list Object)
  : Identical :=
  let ps := partition_by_md5 objs in
  {| survivors := ps ≫= partition_keep;
     deleted := ps ≫= partition_drop;
     silent_events :=
       ELog (name +:+ ": Found " +:+ pretty (length objs)
             +:+ " duplicates - deleting identical copies")
       :: (ps ≫= partition_events name) |}.

(** Modelled from the spec: the split of a name into [stem] and [ext].  The
    extension is the suffix starting at the last dot of the last path
    element, empty when that element has no dot. *)
Fixpoint has_slash (s : string) : bool :=
  match s with
  | EmptyString => false
  | String c r => bool_decide (c = "/"%char) || has_slash r
  end.

Fixpoint Ext (s : string) : string :=
  match s with
  | EmptyString => EmptyString
  | String c r =>
      match Ext r with
      | EmptyString =>
          if bool_decide (c = "."%char) && negb (has_slash r) then s
          else EmptyString
      | e => e
      end
  end.

Definition stem (s : string) : string :=
  String.substring 0 (String.length s - String.length (Ext s)) s.

(** Modelled from the spec: the name [stem-N.ext] of mode rename. *)
Definition new_name (name : string) (n : nat) : string :=
  stem name +:+ "-" +:+ pretty n +:+ Ext name.

(** Modelled from the spec: "ensure chosen names do not collide with existing
    objects": the counter skips the numbers whose name is taken.  A store
    with [size st] names cannot take [S (size st)] candidates, so that much
    fuel always finds one. *)
Fixpoint find_free (st : Store) (name : string) (fuel : nat) (n : nat)
  : option nat :=
  match fuel with
  | O => None
  | S fuel' =>
      if name_taken st (new_name name n) then find_free st name fuel' (S n)
      else Some n
  end.

(** The outcome of the rename loop: the store, the numbers chosen and the
    events. *)
Record Renamed := mkRenamed {
  r_store : Store;
  r_numbers : list nat;
  r_events : list Event
}.

(** Modelled from the spec: mode rename, "keep all; rename each to
    stem-N.ext where N is an ascending counter starting at 1, per surviving
    member".  [objs] are the members still under [name]; [counter] is the
    next number to try. *)
Fixpoint dedupeRename (name : string) (objs : list Object) (counter : nat)
    (st : Store) : option Renamed :=
  match objs with
  | [] => Some (mkRenamed st [] [])
  | o :: rest =>
      match find_free st name (S (size st)) counter with
      | None => None
      | Some n =>
          let newName := new_name name n in
          let st' := set_objects newName [o] (set_objects name rest st) in
          match dedupeRename name rest (S n) st' with
          | None => None
          | Some r =>
              Some (mkRenamed (r_store r) (n :: r_numbers r)
                      (EMove name o newName
                       :: ELog (newName +:+ ": renamed from: " +:+ name)
                       :: r_events r))
          end
      end
  end.

(** Modelled from the spec: keep one member of the group and delete the
    others (modes first, newest, oldest and the interactive choice k). *)
Definition keep_only (name : string) (i : nat) (objs : list Object)
    (st : Store) : Store * list Event :=
  (set_objects name (option_list (objs !! i)) st,
   (EDelete name <$> delete i objs)
   ++ [ELog (name +:+ ": Deleted " +:+ pretty (length objs - 1)
             +:+ " extra copies")]).

(** Modelled from the spec: modes newest and oldest, "ties broken by stable
    enumeration order".  Index of the member with the best modification
    time; a later member replaces the current best only when strictly
    better, so ties go to the first enumerated. *)
Fixpoint pick (better : Z → Z → bool) (best : nat) (bt : Z) (i : nat)
    (rest : list Object) : nat :=
  match rest with
  | [] => best
  | o :: r =>
      if better (o_mod_time o) bt then pick better i (o_mod_time o) (S i) r
      else pick better best bt (S i) r
  end.

Definition best_index (better : Z → Z → bool) (objs : list Object) : nat :=
  match objs with
  | [] => 0
  | o :: r => pick better 0 (o_mod_time o) 1 r
  end.

Definition newest_index : list Object → nat :=
  best_index (λ t bt, bool_decide (bt < t)%Z).

Definition oldest_index : list Object → nat :=
  best_index (λ t bt, bool_decide (t < bt)%Z).

(** Modelled from the spec: the prompt port, [ask(question, choices)] and
    [ask_int(question, range)].  The responder is the list of lines still to
    be typed; an invalid line re-prompts, and a responder with nothing left
    is the non-interactive binding, which returns an error. *)
Fixpoint ask (question : string) (choices : list string)
    (inputs : list string) : list Event * option string * list string :=
  match inputs with
  | [] => ([EPrompt question], None, [])
  | l :: rest =>
      if bool_decide (l ∈ choices) then ([EPrompt question], Some l, rest)
      else
        let '(ev, r, rest') := ask question choices rest in
        (EPrompt question :: ev, r, rest')
  end.

Definition parse_in_range (lo hi : nat) (l : string) : option nat :=
  list_find (λ k, pretty k = l) (seq lo (S hi - lo)) ≫= λ p, Some p.2.

Fixpoint ask_int (question : string) (lo hi : nat) (inputs : list string)
  : list Event * option nat * list string :=
  match inputs with
  | [] => ([EPrompt question], None, [])
  | l :: rest =>
      match parse_in_range lo hi l with
      | Some k => ([EPrompt question], Some k, rest)
      | None =>
          let '(ev, r, rest') := ask_int question lo hi rest in
          (EPrompt question :: ev, r, rest')
      end
  end.

(** The outcome of resolving groups: the store, the lines left to the
    prompt, the events and the error, if any. *)
Record GroupResult := mkGroupResult {
  g_store : Store;
  g_inputs : list string;
  g_events : list Event;
  g_err : option string
}.

(** Modelled from the spec: step 5, the resolution of the surviving group
    [objs] (of size > 1) under a mode. *)
Definition rename_group (name : string) (objs : list Object)
    (inputs : list string) (st : Store) : GroupResult :=
  match dedupeRename name objs 1 st with
  | Some r => mkGroupResult (r_store r) inputs (r_events r) None
  | None => mkGroupResult st inputs [] (Some "no free name")
  end.

Definition keep_group (name : string) (i : nat) (objs : list Object)
    (inputs : list string) (st : Store) : GroupResult :=
  let '(st', ev) := keep_only name i objs st in
  mkGroupResult st' inputs ev None.

Definition skip_group (name : string) (objs : list Object)
    (inputs : list string) (st : Store) : GroupResult :=
  mkGroupResult st inputs
    [ELog (name +:+ ": Skipping " +:+ pretty (length objs)
           +:+ " files with duplicate names")] None.

Definition remain_event (name : string) (objs : list Object) : Event :=
  ELog (name +:+ ": " +:+ pretty (length objs) +:+ " duplicates remain").

(** Modelled from the spec: mode interactive, "accept s (skip), k (keep-one,
    then ask which index), r (rename as above)". *)
Definition dedupeInteractive (name : string) (objs : list Object)
    (inputs : list string) (st : Store) : GroupResult :=
  let '(ev, choice, inputs1) := ask "s/k/r> " ["s"; "k"; "r"] inputs in
  match choice with
  | None => mkGroupResult st inputs1 ev (Some "prompt: no input")
  | Some c =>
      if decide (c = "s") then
        let r := skip_group name objs inputs1 st in
        mkGroupResult (g_store r) (g_inputs r) (ev ++ g_events r) (g_err r)
      else if decide (c = "k") then
        let '(ev2, idx, inputs2) :=
          ask_int "Enter the number of the file to keep> " 1 (length objs)
            inputs1 in
        match idx with
        | None => mkGroupResult st inputs2 (ev ++ ev2) (Some "prompt: no input")
        | Some k =>
            let r := keep_group name (k - 1) objs inputs2 st in
            mkGroupResult (g_store r) (g_inputs r) (ev ++ ev2 ++ g_events r)
              (g_err r)
        end
      else
        let r := rename_group name objs inputs1 st in
        mkGroupResult (g_store r) (g_inputs r) (ev ++ g_events r) (g_err r)
  end.

(** Modelled from the spec: "apply the mode". *)
Definition resolve (mode : DeduplicateMode) (name : string)
    (objs : list Object) (inputs : list string) (st : Store) : GroupResult :=
  match mode with
  | DeduplicateInteractive => dedupeInteractive name objs inputs st
  | DeduplicateSkip => skip_group name objs inputs st
  | DeduplicateFirst => keep_group name 0 objs inputs st
  | DeduplicateNewest => keep_group name (newest_index objs) objs inputs st
  | DeduplicateOldest => keep_group name (oldest_index objs) objs inputs st
  | DeduplicateRename => rename_group name objs inputs st
  end.

(** Modelled from the spec: steps 3 to 5 for one DupeGroup: the objects
    [objs] found under [name]. *)
Definition dedupe_group (mode : DeduplicateMode) (name : string)
    (objs : list Object) (inputs : list string) (st : Store) : GroupResult :=
  let idn := dedupeDeleteIdentical name objs in
  let st1 := set_objects name (survivors idn) st in
  if decide (length (survivors idn) ≤ 1) then
    mkGroupResult st1 inputs (silent_events idn) None
  else
    let r := resolve mode name (survivors idn) inputs st1 in
    mkGroupResult (g_store r) (g_inputs r)
      (silent_events idn ++ remain_event name (survivors idn) :: g_events r)
      (g_err r).

(** Modelled from the spec: step 1, "list the remote recursively": every
    object with its name. *)
Definition listing (st : Store) : list (string * Object) :=
  map_to_list st ≫= λ g, pair g.1 <$> g.2.

(** Modelled from the spec: step 2, "group Objects by (parent_dir,
    basename)".  A name is the parent directory followed by the basename, so
    two objects fall in one group exactly when their names are equal; each
    object is appended to the group of its name. *)
Definition group_by_name (l : list (string * Object)) : Store :=
  foldl (λ files no, <[no.1 := objects_at files no.1 ++ [no.2]]> files) ∅ l.

(** "Discard groups of size 1." *)
Definition dupe_groups (files : Store) : list (string * list Object) :=
  filter (λ g, 1 < length g.2) (map_to_list files).

(** Modelled from the spec: [Deduplicate(remote, mode)], for a run without
    [--dry-run].  Groups are resolved one after the other; an error (the
    prompt port failing) stops the run. *)
Definition Deduplicate_step (mode : DeduplicateMode) (acc : GroupResult)
    (g : string * list Object) : GroupResult :=
  match g_err acc with
  | Some _ => acc
  | None =>
      let r := dedupe_group mode g.1 g.2 (g_inputs acc) (g_store acc) in
      mkGroupResult (g_store r) (g_inputs r) (g_events acc ++ g_events r)
        (g_err r)
  end.

Definition Deduplicate (mode : DeduplicateMode) (inputs : list string)
    (st : Store) : GroupResult :=
  foldl (Deduplicate_step mode) (mkGroupResult st inputs [] None)
    (dupe_groups (group_by_name (listing st))).

(** ** Errors *)

(** Modelled from the spec: the error kinds of the backend contract and of
    the error taxonomy. *)
Inductive ErrorKind :=
| NotFound
| DirNotFound
| DirNotEmpty
| PermissionDenied
| RateLimited (retry_after : Z)    (* milliseconds *)
| Transient
| Fatal
| Unsupported
| HashMismatch
| Cancelled.

Global Instance ErrorKind_eq_dec : EqDecision ErrorKind.
Proof. solve_decision. Defined.

(** [fs.ErrorDirNotFound], the sentinel callers compare with. *)
Definition ErrorDirNotFound : ErrorKind := DirNotFound.

(** ** Listing *)

(** Modelled from the spec: an item of a Listing, an Object (with its size)
    or a Directory, named by its path relative to the root. *)
Inductive DirEntry :=
| EntryObject (remote : string) (size : Z)
| EntryDir (remote : string).

(** Modelled from the spec: the part of the backend contract the lister
    uses, [list(dir)] giving the direct children of a directory or an
    error. *)
Record Backend := mkBackend {
  b_list : string → ErrorKind + list DirEntry
}.

(** A backend that holds its directories in memory: a path that is not a
    directory of the backend does not exist. *)
Definition memory_backend (dirs : gmap string (list DirEntry)) : Backend :=
  mkBackend (λ dir, match dirs !! dir with
                    | Some es => inr es
                    | None => inl DirNotFound
                    end).

(** Modelled from the spec: the Lister builder, with its option "level ∈
    {1, ∞}" and the start it was given. *)
Inductive Level := Level1 | LevelInf.

Record Lister := mkLister {
  l_level : Level;
  l_start : option (Backend * string)
}.

Definition NewLister : Lister := mkLister LevelInf None.

Definition SetLevel (level : Level) (l : Lister) : Lister :=
  mkLister level (l_start l).

Definition Start (f : Backend) (dir : string) (l : Lister) : Lister :=
  mkLister (l_level l) (Some (f, dir)).

Definition entry_objects (es : list DirEntry) : list (string * Z) :=
  es ≫= λ e, match e with EntryObject r sz => [(r, sz)] | EntryDir _ => [] end.

Definition entry_dirs (es : list DirEntry) : list string :=
  es ≫= λ e, match e with EntryObject _ _ => [] | EntryDir r => [r] end.

(** What [GetAll] returns: the objects, the directories and the error. *)
Definition Listing : Type := list (string * Z) * list string * option ErrorKind.

(** Modelled from the spec: the recursive walk of level ∞; [fuel] bounds the
    depth, [None] is a walk that ran out of it.  An error anywhere ends the
    listing. *)
Fixpoint walk (fuel : nat) (f : Backend) (dir : string)
  : option (ErrorKind + (list (string * Z) * list string)) :=
  match fuel with
  | O => None
  | S fuel' =>
      match b_list f dir with
      | inl e => Some (inl e)
      | inr es =>
          foldl (λ acc d,
                   match acc with
                   | Some (inr (objs, dirs)) =>
                       match walk fuel' f d with
                       | Some (inr (objs', dirs')) =>
                           Some (inr (objs ++ objs', dirs ++ dirs'))
                       | r => r
                       end
                   | r => r
                   end)
            (Some (inr (entry_objects es, entry_dirs es))) (entry_dirs es)
      end
  end.

(** Modelled from the spec: [get_all()] drains the listing to memory; "on
    DirNotFound at the starting path, the Listing terminates empty with a
    sentinel the caller can detect".  Any error leaves the listing empty. *)
Definition GetAll (fuel : nat) (l : Lister) : option Listing :=
  match l_start l with
  | None => Some ([], [], None)
  | Some (f, dir) =>
      match l_level l with
      | Level1 =>
          match b_list f dir with
          | inl e => Some ([], [], Some e)
          | inr es => Some (entry_objects es, entry_dirs es, None)
          end
      | LevelInf =>
          match walk fuel f dir with
          | None => None
          | Some (inl e) => Some ([], [], Some e)
          | Some (inr (objs, dirs)) => Some (objs, dirs, None)
          end
      end
  end.

(** ** Transfers and their retries *)

(** What the backend answers to one attempt of a transfer. *)
Inductive AttemptResult := AttemptOk | AttemptErr (e : ErrorKind).

(** Modelled from the spec: the states of a Transfer. *)
Inductive TransferState := queued | running | succeeded | failed | retrying.

Global Instance TransferState_eq_dec : EqDecision TransferState.
Proof. solve_decision. Defined.

(** Modelled from the spec: the retry state of a Transfer: the attempts
    made, the state, the time spent waiting in the queue (milliseconds) and
    whether a hash mismatch has already been retried. *)
Record Transfer := mkTransfer {
  attempts : nat;
  state : TransferState;
  waited : Z;
  mismatched : bool
}.

Definition new_transfer : Transfer := mkTransfer 0 queued 0 false.

(** Modelled from the spec: "exponential backoff (base 1s, cap 60s, jitter
    10%)".  [jitter] is the draw for this retry, in thousandths of the
    backoff; the model clamps it to ±10%. *)
Definition backoff_base : Z := 1000.
Definition backoff_cap : Z := 60000.

Definition backoff (retry : nat) : Z :=
  Z.min backoff_cap (backoff_base * 2 ^ Z.of_nat retry).

Definition clamp_jitter (j : Z) : Z := Z.max (-100) (Z.min 100 j).

Definition jittered (retry : nat) (j : Z) : Z :=
  (backoff retry + backoff retry * clamp_jitter j / 1000)%Z.

(** "RateLimited uses max(backoff, retry-after)". *)
Definition delay (e : ErrorKind) (retry : nat) (j : Z) : Z :=
  match e with
  | RateLimited retry_after => Z.max (jittered retry j) retry_after
  | _ => jittered retry j
  end.

(** Modelled from the spec: which failures are re-queued: Transient and
    RateLimited; HashMismatch once ("treated as transient once"); Fatal and
    the others never. *)
Definition retryable (e : ErrorKind) (t : Transfer) : bool :=
  match e with
  | Transient | RateLimited _ => true
  | HashMismatch => negb (mismatched t)
  | _ => false
  end.

Definition begin_attempt (t : Transfer) : Transfer :=
  mkTransfer (S (attempts t)) running (waited t) (mismatched t).

Definition finish (st : TransferState) (t : Transfer) : Transfer :=
  mkTransfer (attempts t) st (waited t) (mismatched t).

Definition requeue (e : ErrorKind) (j : Z) (t : Transfer) : Transfer :=
  mkTransfer (attempts t) retrying
    (waited t + delay e (attempts t - 1) j)
    (mismatched t || bool_decide (e = HashMismatch)).

(** Modelled from the spec: the life of one Transfer.  [answer n] is what the
    backend answers to the [n]-th attempt, [jitter n] the draw after it;
    [retries] is what is left of [low_level_retries].  The result is the
    list of the states the Transfer goes through, the last one being
    terminal. *)
Fixpoint attempt (answer : nat → AttemptResult) (jitter : nat → Z)
    (retries : nat) (t : Transfer) : list Transfer :=
  let t1 := begin_attempt t in
  match answer (attempts t1) with
  | AttemptOk => [t1; finish succeeded t1]
  | AttemptErr e =>
      if retryable e t1 then
        match retries with
        | O => [t1; finish failed t1]
        | S retries' =>
            let t2 := requeue e (jitter (attempts t1)) t1 in
            t1 :: t2 :: attempt answer jitter retries' t2
        end
      else [t1; finish failed t1]
  end.

Definition transfer_history (low_level_retries : nat)
    (answer : nat → AttemptResult) (jitter : nat → Z) : list Transfer :=
  new_transfer :: attempt answer jitter low_level_retries new_transfer.

Definition run_transfer (low_level_retries : nat)
    (answer : nat → AttemptResult) (jitter : nat → Z) : Transfer :=
  default new_transfer
    (last (transfer_history low_level_retries answer jitter)).

(** ** Sync, copy and move *)

(** Modelled from the spec: a remote as the reconciliation sees it: its
    objects by relative path, the hash algorithms it supports, its mod_time
    precision (nanoseconds) and whether the pipeline sets the mod_time of
    what it writes there (the spec's "when the backend supports precision
    ≥ 1s"). *)
Record Remote := mkRemote {
  r_objects : gmap string Object;
  r_hashes : list HashAlgorithm;
  r_precision : positive;
  r_sets_mod_time : bool
}.

Definition with_objects (objs : gmap string Object) (r : Remote) : Remote :=
  mkRemote objs (r_hashes r) (r_precision r) (r_sets_mod_time r).

(** Modelled from the spec: "a mode ∈ {copy, sync, move}". *)
Inductive SyncMode := ModeCopy | ModeSync | ModeMove.

Global Instance SyncMode_eq_dec : EqDecision SyncMode.
Proof. solve_decision. Defined.

(** Modelled from the spec: the verdicts: schedule a transfer, schedule a
    delete, skip. *)
Inductive Verdict := VTransfer | VDelete | VSkip.

Global Instance Verdict_eq_dec : EqDecision Verdict.
Proof. solve_decision. Defined.

(** The first algorithm of the source that the destination supports too. *)
Definition common_hash (src dst : Remote) : option HashAlgorithm :=
  head (filter (λ a, a ∈ r_hashes dst) (r_hashes src)).

(** max(precision_src, precision_dst) *)
Definition window (src dst : Remote) : Z :=
  Z.max (Z.pos (r_precision src)) (Z.pos (r_precision dst)).

(** Modelled from the spec: the comparison of an object present on both
    sides: "(i) if a common hash exists, hash equality wins; (ii) else size
    equality AND |mtime_src − mtime_dst| ≤ max(precision_src,
    precision_dst); (iii) else treat as different". *)
Definition equal_objects (src dst : Remote) (s d : Object) : bool :=
  match common_hash src dst with
  | Some a => bool_decide (digest a s = digest a d)
  | None =>
      bool_decide (o_size s = o_size d)
      && bool_decide (Z.abs (o_mod_time s - o_mod_time d) ≤ window src dst)%Z
  end.

(** Modelled from the spec: the verdict for one relative path. *)
Definition verdict (mode : SyncMode) (src dst : Remote)
    (s d : option Object) : option Verdict :=
  match s, d with
  | Some _, None => Some VTransfer
  | None, Some _ => Some (if decide (mode = ModeSync) then VDelete else VSkip)
  | Some s, Some d => Some (if equal_objects src dst s d then VSkip else VTransfer)
  | None, None => None
  end.

(** "Merge by relative path." *)
Definition plan (mode : SyncMode) (src dst : Remote) : gmap string Verdict :=
  merge (verdict mode src dst) (r_objects src) (r_objects dst).

(** What a run meets: the retries allowed, the clock of the uploads, and for
    every path what the backend answers to the attempts of its transfer. *)
Record Env := mkEnv {
  e_retries : nat;
  e_now : Z;
  e_answer : string → nat → AttemptResult;
  e_jitter : string → nat → Z
}.

Definition transfer_ok (env : Env) (path : string) : bool :=
  bool_decide
    (state (run_transfer (e_retries env) (e_answer env path) (e_jitter env path))
     = succeeded).

(** Modelled from the spec: the object a successful transfer leaves at the
    destination: the same content (size and digests), and the source's
    mod_time at the destination's precision when the pipeline sets it, the
    instant of the upload otherwise. *)
Definition stored (env : Env) (dst : Remote) (s : Object) : Object :=
  mkObject (o_size s)
    (if r_sets_mod_time dst
     then (o_mod_time s `div` Z.pos (r_precision dst)) * Z.pos (r_precision dst)
     else e_now env)%Z
    (o_md5 s) (o_sha1 s).

(** What a run leaves: both sides, and the counters. *)
Record SyncResult := mkSyncResult {
  s_src : gmap string Object;
  s_dst : gmap string Object;
  s_transfers : nat;
  s_deletes : nat;
  s_errors : nat;
  s_checks : nat
}.

(** Modelled from the spec: one run of copy, sync or move, without
    [--dry-run].  Every path whose verdict is a transfer is handed to the
    pipeline; a transfer that ends failed is counted as an error and leaves
    the destination as it was.  Destination deletes (mode sync) are executed
    once every transfer has succeeded; in mode move the source of a
    successful transfer is deleted.  [scheduled]: the transfers of the plan;
    [failures]: those that end failed; [copied]: what the successful ones
    write; [doomed]: the destination objects deleted; [moved]: the source
    objects deleted. *)
Definition scheduled (mode : SyncMode) (src dst : Remote)
  : gmap string Verdict :=
  filter (λ pv, pv.2 = VTransfer) (plan mode src dst).

Definition failures (env : Env) (mode : SyncMode) (src dst : Remote)
  : gmap string Verdict :=
  filter (λ pv, transfer_ok env pv.1 = false) (scheduled mode src dst).

Definition copied (env : Env) (mode : SyncMode) (src dst : Remote)
  : gmap string Object :=
  map_imap (λ path s,
              if decide (plan mode src dst !! path = Some VTransfer) then
                if transfer_ok env path then Some (stored env dst s) else None
              else None)
    (r_objects src).

Definition doomed (env : Env) (mode : SyncMode) (src dst : Remote)
  : gmap string Object :=
  filter (λ pd, plan mode src dst !! pd.1 = Some VDelete
                ∧ failures env mode src dst = ∅)
    (r_objects dst).

Definition moved (env : Env) (mode : SyncMode) (src dst : Remote)
  : gmap string Object :=
  if decide (mode = ModeMove)
  then filter (λ ps, is_Some (copied env mode src dst !! ps.1)) (r_objects src)
  else ∅.

Definition sync (env : Env) (mode : SyncMode) (src dst : Remote) : SyncResult :=
  {| s_src := r_objects src ∖ moved env mode src dst;
     s_dst := copied env mode src dst ∪ (r_objects dst ∖ doomed env mode src dst);
     s_transfers := size (scheduled mode src dst);
     s_deletes := size (doomed env mode src dst) + size (moved env mode src dst);
     s_errors := size (failures env mode src dst);
     s_checks := size (r_objects src ∩ r_objects dst) |}.


End fs.

(** ** Package [cmd]: the process and its fatal exits *)

Module cmd.
Import fs.

(** A certificate, identified by its encoded form. *)
Definition Certificate := string.

(** The part of the process state that the entry point and the dedupe
    command read and write. *)
Record Process := mkProcess {
  p_files : gmap string string;           (* files [ioutil.ReadFile] can read *)
  p_RootCAs : option (list Certificate);  (* the TLS configuration's RootCAs;
                                             [None] is Go's nil *)
  p_dedupeMode : DeduplicateMode;         (* package variable [dedupeMode] *)
  p_remotes : gmap string Store;          (* the remotes that can be opened *)
  p_stdin : list string;                  (* lines the prompt can still read *)
  p_log : list string;                    (* what package log has printed *)
  p_events : list Event;                  (* what dedupe did to the remotes *)
  p_calls : list (string * DeduplicateMode)  (* calls of [fs.Deduplicate] *)
}.

(** A computation either returns to its caller or has ended the process with
    an exit status ([os.Exit]). *)
Inductive Result (A : Type) :=
| Returned (a : A) (p : Process)
| Exited (code : Z) (p : Process).
Global Arguments Returned {A} a p.
Global Arguments Exited {A} code p.

Definition M (A : Type) : Type := Process → Result A.

(** Modelled from the spec: the classes of the table of exit codes, "0
    success; 1 generic failure; 2 usage error; 3 directory-not-found; 4
    file-not-found; 5 temporary error (retries exhausted); 6 less serious
    errors (partial success)". *)
Inductive ExitKind :=
| ExitSuccess
| ExitGenericFailure
| ExitUsageError
| ExitDirNotFound
| ExitFileNotFound
| ExitTemporaryError
| ExitLessSerious.

Definition exit_code_of (k : ExitKind) : Z :=
  match k with
  | ExitSuccess => 0
  | ExitGenericFailure => 1
  | ExitUsageError => 2
  | ExitDirNotFound => 3
  | ExitFileNotFound => 4
  | ExitTemporaryError => 5
  | ExitLessSerious => 6
  end%Z.

(** Modelled from the spec: an error value as the dispatcher returns it
    ("errors as values ... carrying one of the error kinds"): its message,
    and the class of the table it belongs to. *)
Record Error := mkError {
  err_kind : ExitKind;
  err_msg : string
}.

Definition ret {A} (a : A) : M A := λ p, Returned a p.

Definition bind {A B} (m : M A) (k : A → M B) : M B :=
  λ p, match m p with
       | Returned a p' => k a p'
       | Exited c p' => Exited c p'
       end.

Definition final {A} (r : Result A) : Process :=
  match r with Returned _ p => p | Exited _ p => p end.

(** The status the process ends with: 0 when [main] returns. *)
Definition exit_code {A} (r : Result A) : Z :=
  match r with Returned _ _ => 0%Z | Exited c _ => c end.

Definition add_log (msg : string) (p : Process) : Process :=
  mkProcess (p_files p) (p_RootCAs p) (p_dedupeMode p) (p_remotes p)
    (p_stdin p) (p_log p ++ [msg]) (p_events p) (p_calls p).

(** The state a process starts in: nothing configured for TLS, nothing
    logged or done yet. *)
Definition start (files : gmap string string) (mode : DeduplicateMode)
    (remotes : gmap string Store) (stdin : list string) : Process :=
  mkProcess files None mode remotes stdin [] [] [].

(** [log.Fatal] and [log.Fatalf]: print, then [os.Exit(1)]. *)
Definition log_Fatal {A} (msg : string) : M A :=
  λ p, Exited 1%Z (add_log msg p).

(** Modelled from the spec: [cmd.CheckArgs(min, max, command, args)], which is
    not part of the sources: "dedupe [MODE] REMOTE" takes one or two
    arguments, anything else ends the process. *)
Definition CheckArgs (MinArgs MaxArgs : nat) (args : list string) : M unit :=
  if decide (length args < MinArgs) then
    log_Fatal "Command needs more arguments"
  else if decide (MaxArgs < length args) then
    log_Fatal "Command has too many arguments"
  else ret tt.

(** Modelled from the spec: [cmd.NewFsSrc(args)], not part of the sources:
    opens the remote named by the first argument ("name:path, where name
    matches a configured Remote") and ends the process when it cannot. *)
Definition NewFsSrc (args : list string) : M string :=
  λ p, match args with
       | remote :: _ =>
           match p_remotes p !! remote with
           | Some _ => Returned remote p
           | None => log_Fatal ("Failed to create file system for " +:+ remote) p
           end
       | [] => log_Fatal "Failed to create file system" p
       end.

(** Modelled from the spec: [cmd.Run(false, false, command, f)], not part of
    the sources: runs [f] once and ends the process when it fails. *)
Definition Run (f : M (option string)) : M unit :=
  bind f (λ err,
    match err with
    | Some e => log_Fatal ("Failed to dedupe: " +:+ e)
    | None => ret tt
    end).

(** The call [fs.Deduplicate(fdst, mode)] on the process state. *)
Definition Deduplicate (fdst : string) (mode : DeduplicateMode)
  : M (option string) :=
  λ p,
    let r := fs.Deduplicate mode (p_stdin p) (default ∅ (p_remotes p !! fdst)) in
    Returned (g_err r)
      (mkProcess (p_files p) (p_RootCAs p) (p_dedupeMode p)
         (<[fdst := g_store r]> (p_remotes p)) (g_inputs r) (p_log p)
         (p_events p ++ g_events r) (p_calls p ++ [(fdst, mode)])).

End cmd.

(** ** The [dedupe] command *)

Module dedupe.
Import fs cmd.

(** [var dedupeMode = fs.DeduplicateInteractive] *)
Definition dedupeMode : DeduplicateMode := DeduplicateInteractive.

Definition set_dedupeMode (m : DeduplicateMode) : M unit :=
  λ p, Returned tt
         (mkProcess (p_files p) (p_RootCAs p) m (p_remotes p) (p_stdin p)
            (p_log p) (p_events p) (p_calls p)).

Definition get_dedupeMode : M DeduplicateMode :=
  λ p, Returned (p_dedupeMode p) p.

(** [commandDefintion.Run]: the function the command runs on its arguments. *)
Definition Run (args : list string) : M unit :=
  bind (CheckArgs 1 2 args) (λ _,
  bind (match args with
        | a0 :: ((_ :: _) as rest) =>        (* len(args) > 1 *)
            match DeduplicateMode_Set a0 with
            | inl err => log_Fatal err
            | inr m => bind (set_dedupeMode m) (λ _, ret rest)
            end
        | _ => ret args
        end) (λ args,
  bind (NewFsSrc args) (λ fdst,
  cmd.Run (bind get_dedupeMode (λ mode, cmd.Deduplicate fdst mode))))).

(** The command as the dispatcher invokes it: the flag [--dedupe-mode], when
    given, is stored into [dedupeMode] through [Set] before [Run]; a value
    [Set] rejects is an error the dispatcher returns from [Execute]. *)
Definition Execute (flag : option string) (args : list string)
  : M (option Error) :=
  match flag with
  | None => bind (Run args) (λ _, ret None)
  | Some v =>
      match DeduplicateMode_Set v with
      | inl err => ret (Some (mkError ExitUsageError err))
      | inr m => bind (set_dedupeMode m) (λ _, bind (Run args) (λ _, ret None))
      end
  end.

End dedupe.

(** ** [rclone.go]: the entry point *)

Module rclone.
Import fs cmd.

(** [crypto/x509]: a pool is the list of its certificates;
    [AppendCertsFromPEM] adds the certificates it can parse from the data,
    [parsePEM] standing for the decoder. *)
Definition NewCertPool : list Certificate := [].

Definition AppendCertsFromPEM (parsePEM : string → list Certificate)
    (certs : list Certificate) (pemData : string) : list Certificate :=
  certs ++ parsePEM pemData.

Definition set_RootCAs (certs : list Certificate) (p : Process) : Process :=
  mkProcess (p_files p) (Some certs) (p_dedupeMode p) (p_remotes p)
    (p_stdin p) (p_log p) (p_events p) (p_calls p).

(** [crypto/tls]: "If RootCAs is nil, TLS uses the host's root CA set." *)
Definition trusted (hostRoots : list Certificate) (p : Process)
    (c : Certificate) : Prop :=
  match p_RootCAs p with
  | None => c ∈ hostRoots
  | Some pool => c ∈ pool
  end.

Definition cacert_path : string := "/etc/cacert.crt".

(** The first statements of [main]: a new pool, the file read, and, when the
    read succeeds, the pool filled from the file and stored as RootCAs. *)
Definition load_cacert (parsePEM : string → list Certificate) (p : Process)
  : Process :=
  let certs := NewCertPool in
  match p_files p !! cacert_path with       (* err == nil *)
  | Some pemData =>
      let certs := AppendCertsFromPEM parsePEM certs pemData in
      set_RootCAs certs p
  | None => p
  end.

(** The last statement of [main]: a non-nil error is fatal. *)
Definition fatal_on_error (err : option Error) : M unit :=
  match err with
  | Some e => log_Fatal ("Fatal error: " +:+ err_msg e)
  | None => ret tt
  end.

(** [main], with [execute] for [cmd.Root.Execute()]. *)
Definition main (parsePEM : string → list Certificate)
    (execute : M (option Error)) : M unit :=
  λ p, bind execute fatal_on_error (load_cacert parsePEM p).

(** The exit status the table assigns to a run in which the dispatcher
    returned [err]: the code of the class of the error. *)
Definition table_exit_code (err : option Error) : Z :=
  match err with
  | None => exit_code_of ExitSuccess
  | Some e => exit_code_of (err_kind e)
  end.

End rclone.

(** ** Go's package [strings], as the test helpers use it *)

Module go_strings.

(** [strings.Split(s, sep)] for a separator of one byte: the pieces of [s]
    between the occurrences of [sep], one more than there are occurrences
    (so the split of the empty string is one empty piece). *)
Fixpoint Split (s : string) (sep : ascii) : list string :=
  match s with
  | EmptyString => [EmptyString]
  | String c r =>
      if decide (c = sep) then EmptyString :: Split r sep
      else
        match Split r sep with
        | [] => [String c EmptyString]
        | h :: t => String c h :: t
        end
  end.

(** [strings.HasSuffix(s, suffix)]:
    [len(s) >= len(suffix) && s[len(s)-len(suffix):] == suffix]. *)
Definition HasSuffix (s suffix : string) : bool :=
  bool_decide (String.length suffix ≤ String.length s)
  && bool_decide
       (String.substring (String.length s - String.length suffix)
          (String.length suffix) s = suffix).

End go_strings.

(** ** [cmd/mount/fs_test.go]: helpers of the mount test-suite *)

Module mount_test.
Import fs.





(** [type dirMap map[string]struct{}] *)
Abbreviation dirMap := (gset string).

(** How a test helper ends: normally, with the map it filled, or stopped by
    [require.NoError]. *)
Inductive TestResult :=
| TestOk (dir : dirMap)
| TestFailed (err : ErrorKind).

(** [readRemote]: reads the remote tree into [dir].  [fuel] bounds the depth
    of the recursion into sub-directories. *)
Fixpoint readRemote (fuel : nat) (fremote : Backend) (dir : dirMap)
    (filepath : string) : option TestResult :=
  match fuel with
  | O => None
  | S fuel' =>
      match GetAll 1 (Start fremote filepath (SetLevel Level1 NewLister)) with
      | None => None
      | Some (objs, dirs, err) =>
          if decide (err = Some ErrorDirNotFound) then Some (TestOk dir)
          else
            match err with
            | Some e => Some (TestFailed e)            (* require.NoError *)
            | None =>
                let dir1 :=
                  foldl (λ dir obj,
                           {[ obj.1 +:+ " " +:+ pretty obj.2 ]} ∪ dir)
                    dir objs in
                foldl (λ acc name,
                         match acc with
                         | Some (TestOk dir) =>
                             readRemote fuel' fremote
                               ({[ name +:+ "/" ]} ∪ dir) name
                         | r => r
                         end)
                  (Some (TestOk dir1)) dirs
            end
      end
  end.

(** [newDirMap]: creates a dirMap from a string, the entries separated by
    "|", the empty ones left out. *)
Definition newDirMap (dirString : string) : dirMap :=
  foldl (λ dm entry, if decide (entry ≠ EmptyString) then {[ entry ]} ∪ dm
                     else dm)
    ∅ (go_strings.Split dirString "|"%char).

(** [filesOnly]: a dirMap with only the files in; the loop ranges over the
    entries of the map. *)
Definition filesOnly (dm : dirMap) : dirMap :=
  foldl (λ newDm name, if go_strings.HasSuffix name "/" then newDm
                       else {[ name ]} ∪ newDm)
    ∅ (elements dm).

(** *** The mount and its life cycle *)

(** A channel of errors, by what a receive on it gets: [None] when nothing
    is ever sent (the receive blocks for ever), [Some None] for a nil
    error. *)
Definition Chan : Type := option (option string).

(** The fields of [Run] that the life cycle reads and writes. *)
Record Run := mkRun {
  mountPath : string;
  skip : bool;
  umountResult : Chan
}.

(** What the helpers print with package log, by format and by the values
    that differ from run to run. *)
Inductive LogLine :=
| LogMount (mountPath : string)
| LogMountFailed (err : string)
| LogMountOK
| LogSkipUmount
| LogCallFusermount (mountPath : string)
| LogFusermountFailed (err : string)
| LogWaitUmount
| LogUmountFailed (err : string)
| LogFailedOpenRemote (err : string)
| LogFailedMkdir (err : string)
| LogFailedMountDir (err : string)
| LogFailedClean (mountPath : string) (err : string).

(** The calls that leave the test process. *)
Inductive Action :=
| ActRandomRemote
| ActMkdir
| ActTempDir
| ActMount (mountPath : string)
| ActRunTests
| ActFusermount (mountPath : string)
| ActReceive
| ActCleanRemote
| ActRemoveAll (mountPath : string).

Global Instance Action_eq_dec : EqDecision Action.
Proof. solve_decision. Defined.

(** What those calls answer: the errors of [fstest.RandomRemote], of
    [Mkdir], of [ioutil.TempDir] (or the directory made), the channel and
    the error of [mount], the errors of [fusermount -u] and of
    [os.RemoveAll], and the result of [m.Run()]. *)
Record Host := mkHost {
  h_RandomRemote : option string;
  h_Mkdir : option string;
  h_TempDir : string + string;
  h_mount : Chan * option string;
  h_fusermount : option string;
  h_RemoveAll : option string;
  h_tests : Z
}.

Record World := mkWorld {
  w_log : list LogLine;
  w_trace : list Action
}.

(** A helper returns, ends the process ([log.Fatalf], [os.Exit]) or blocks
    for ever on a receive. *)
Inductive Outcome (A : Type) :=
| Done (a : A) (w : World)
| Exit (code : Z) (w : World)
| Blocked (w : World).
Global Arguments Done {A} a w.
Global Arguments Exit {A} code w.
Global Arguments Blocked {A} w.

Definition T (A : Type) : Type := World → Outcome A.

Definition tret {A} (a : A) : T A := λ w, Done a w.

Definition tbind {A B} (m : T A) (k : A → T B) : T B :=
  λ w, match m w with
       | Done a w' => k a w'
       | Exit c w' => Exit c w'
       | Blocked w' => Blocked w'
       end.

Definition logf (l : LogLine) : T unit :=
  λ w, Done tt (mkWorld (w_log w ++ [l]) (w_trace w)).

Definition act (a : Action) : T unit :=
  λ w, Done tt (mkWorld (w_log w) (w_trace w ++ [a])).

(** [log.Fatalf]: print, then [os.Exit(1)]. *)
Definition Fatalf {A} (l : LogLine) : T A :=
  λ w, Exit 1%Z (mkWorld (w_log w ++ [l]) (w_trace w)).


(** [(r *Run) mount] *)
Definition mount (h : Host) (r : Run) : T Run :=
  tbind (logf (LogMount (mountPath r))) (λ _,
  tbind (act (ActMount (mountPath r))) (λ _,
  let r1 := mkRun (mountPath r) (skip r) (h_mount h).1 in
  tbind (match (h_mount h).2 with
         | Some err =>
             tbind (logf (LogMountFailed err)) (λ _,
             tret (mkRun (mountPath r1) true (umountResult r1)))
         | None => tret r1
         end) (λ r2,
  tbind (logf LogMountOK) (λ _, tret r2)))).

(** [(r *Run) umount] *)
Definition umount (h : Host) (r : Run) : T unit :=
  if skip r then logf LogSkipUmount
  else
    tbind (logf (LogCallFusermount (mountPath r))) (λ _,
    tbind (act (ActFusermount (mountPath r))) (λ _,
    tbind (match h_fusermount h with
           | Some err => logf (LogFusermountFailed err)
           | None => tret tt
           end) (λ _,
    tbind (logf LogWaitUmount) (λ _,
    tbind (act ActReceive) (λ _,
    match umountResult r with
    | None => λ w, Blocked w
    | Some (Some err) => Fatalf (LogUmountFailed err)
    | Some None => tret tt
    end))))).

(** [(r *Run) Finalise]: cleans the remote and unmounts. *)
Definition Finalise (h : Host) (r : Run) : T unit :=
  tbind (umount h r) (λ _,
  tbind (act ActCleanRemote) (λ _,
  tbind (act (ActRemoveAll (mountPath r))) (λ _,
  match h_RemoveAll h with
  | Some err => logf (LogFailedClean (mountPath r) err)
  | None => tret tt
  end))).

(** [newRun]: after the settings (see [newRun_Config]), the remote, its
    root directory, the mount directory, then the mount.  The channel made
    for [umountResult] is one nothing is sent on. *)
Definition newRun (h : Host) : T Run :=
  tbind (act ActRandomRemote) (λ _,
  tbind (match h_RandomRemote h with
         | Some err => Fatalf (LogFailedOpenRemote err)
         | None => tret tt
         end) (λ _,
  tbind (act ActMkdir) (λ _,
  tbind (match h_Mkdir h with
         | Some err => Fatalf (LogFailedMkdir err)
         | None => tret tt
         end) (λ _,
  tbind (act ActTempDir) (λ _,
  tbind (match h_TempDir h with
         | inl err => Fatalf (LogFailedMountDir err)
         | inr path => tret path
         end) (λ path,
  mount h (mkRun path false None))))))).

(** [TestMain]: drives the tests. *)
Definition TestMain (h : Host) : T unit :=
  tbind (newRun h) (λ run,
  tbind (act ActRunTests) (λ _,
  let rc := h_tests h in
  tbind (Finalise h run) (λ _,
  λ w, Exit rc w))).

End mount_test.

(** ** Sample data: the session of the command's help text *)

Module sample.
Import fs cmd.

Definition H1 : string := "1eedaa9fe86fd4b8632e2ac549403b36".
Definition H2 : string := "7594e7dc9fc28f727c42ee3e0749de81".
Definition H3 : string := "851957f7fb6f0bc4ce76be966d336802".

Definition one_txt : list Object :=
  [ mkObject 6048320 1457195016798 H1 "a";
    mkObject 6048320 1457195011775 H1 "a";
    mkObject 564374 1457195006731 H2 "b";
    mkObject 6048320 1457194726092 H1 "a" ].

Definition two_txt : list Object :=
  [ mkObject 564374 1457194992118 H2 "b";
    mkObject 6048320 1457194986185 H1 "a";
    mkObject 1744073 1457194978104 H3 "c" ].

Definition dupes : Store := {[ "one.txt" := one_txt; "two.txt" := two_txt ]}.

Definition process : Process :=
  start ∅ dedupe.dedupeMode {[ "drive:dupes" := dupes ]} ["k"; "1"; "r"].

End sample.

(** * Vocabulary of the statements *)

Import fs.

(** [strings.Join(elems, sep)], the inverse of [Split]. *)
Fixpoint Join (elems : list string) (sep : string) : string :=
  match elems with
  | [] => EmptyString
  | [e] => e
  | e :: rest => e +:+ sep +:+ Join rest sep
  end.

(** The bytes of a string, and its last byte. *)
Fixpoint bytes (s : string) : list ascii :=
  match s with
  | EmptyString => []
  | String c r => c :: bytes r
  end.

Definition digit (c : ascii) : Prop := c ∈ bytes "0123456789".

(** The entries of a list, each after a "|": what is left of [Join] between
    two separators. *)
Definition wrap (l : list string) : string :=
  foldr (λ e acc, "|" +:+ e +:+ acc) EmptyString l.

(** The entry [readRemote] writes for an object: [fmt.Sprintf("%s %d", ...)]. *)
Definition object_entry (obj : string * Z) : string :=
  obj.1 +:+ " " +:+ pretty obj.2.

(** The entry [readRemote] writes for a directory. *)
Definition dir_entry (name : string) : string := name +:+ "/".

(** The loop of [readRemote] over the sub-directories of a listing. *)
Definition loop (fuel : nat) (f : Backend)
  : option mount_test.TestResult → list string
    → option mount_test.TestResult :=
  foldl (λ acc name,
           match acc with
           | Some (mount_test.TestOk dir) =>
               mount_test.readRemote fuel f ({[ name +:+ "/" ]} ∪ dir) name
           | r => r
           end).

(** What a reading may add to a map: entries of objects and of
    directories, and nothing is taken away. *)
Definition grown (dir dir' : mount_test.dirMap) : Prop :=
  dir ⊆ dir' ∧
  ∀ x, x ∈ dir' →
    x ∈ dir ∨ (∃ obj, x = object_entry obj) ∨ (∃ name, x = dir_entry name).

(** A directory that is missing or empty: reading it adds nothing. *)
Definition nothing_in (f : Backend) (d : string) : Prop :=
  b_list f d = inl DirNotFound ∨ b_list f d = inr [].

(** The listing of a directory fails with [e] somewhere below [path], on
    the way [readRemote] takes: in [path] itself, or in the first of its
    sub-directories that is not read to its end, the ones before it being
    read without failure. *)
Inductive fails_at (f : Backend) (e : ErrorKind) : string → Prop :=
| fails_here path :
    b_list f path = inl e → fails_at f e path
| fails_below path es ds1 d ds2 :
    b_list f path = inr es →
    entry_dirs es = ds1 ++ d :: ds2 →
    (∀ d', d' ∈ ds1 →
       ∃ n, ∀ dir, ∃ dir',
         mount_test.readRemote n f dir d' = Some (mount_test.TestOk dir')) →
    fails_at f e d →
    fails_at f e path.





(** A host on which FUSE is missing, and one whose unmount fails. *)
Definition host_without_fuse : mount_test.Host :=
  mount_test.mkHost None None (inr "/tmp/rclonefs-mount1")
    (None, Some "fusermount: not found") None None 0.

Definition host_umount_fails : mount_test.Host :=
  mount_test.mkHost None None (inr "/tmp/rclonefs-mount1")
    (Some (Some "device busy"), None) None None 0.

(** A remote whose directory "d/e" cannot be listed. *)
Definition locked_remote : Backend :=
  mkBackend (λ dir,
    if decide (dir = EmptyString) then
      inr [EntryObject "a.txt" 3; EntryDir "c"; EntryDir "d"]
    else if decide (dir = "c") then inr [EntryObject "c/x" 1]
    else if decide (dir = "d") then inr [EntryDir "d/e"; EntryObject "d/y" 2]
    else if decide (dir = "d/e") then inl PermissionDenied
    else inl DirNotFound).

(** The objects of a listing that are the first of their digest: the reading
    of "keep the first encountered" by one pass with the digests seen so far. *)
Fixpoint keep_first (seen : list string) (objs : list Object) : list Object :=
  match objs with
  | [] => []
  | o :: r =>
      if decide (o_md5 o ∈ seen) then keep_first seen r
      else o :: keep_first (o_md5 o :: seen) r
  end.










(** A list whose consecutive elements are related by [R]. *)
Inductive chain {A} (R : A → A → Prop) : list A → Prop :=
| chain_nil : chain R []
| chain_one x : chain R [x]
| chain_cons x y l : R x y → chain R (y :: l) → chain R (x :: y :: l).


(** A small remote: two files at the root, one in the directory [d]. *)
Definition small_remote : Backend :=
  memory_backend
    {[ "" := [EntryObject "a.txt" 3; EntryDir "d"; EntryObject "z" 0];
       "d" := [EntryObject "d/b.txt" 3] ]}.

(** Two remotes with no path in common, and a backend that never fails. *)
Definition sample_env : Env := mkEnv 10 0 (λ _ _, AttemptOk) (λ _ _, 0%Z).

Definition sample_src : Remote :=
  mkRemote {[ "a.txt" := mkObject 3 5 "md5-AAA" "sha1-AAA";
              "d/b.txt" := mkObject 3 6 "md5-BBB" "sha1-BBB" ]}
    [HashMD5; HashSHA1] 1 true.

Definition sample_dst : Remote :=
  mkRemote {[ "stale.txt" := mkObject 3 1 "md5-XXX" "sha1-XXX" ]}
    [HashMD5] 1000000000 true.

(** * Properties *)

Section dedupe_identical.
Import fs.








Lemma keep_first_sublist seen objs : sublist (keep_first seen objs) objs.
Proof.
  revert seen. induction objs as [|o r IH]; intros seen; simpl; [done|].
  destruct (decide (o_md5 o ∈ seen)).
  - by apply sublist_cons.
  - by apply sublist_skip.
Qed.









End dedupe_identical.

Section dedupe_store.
Import fs.



Lemma string_length_append s1 s2 :
  String.length (s1 +:+ s2) = String.length s1 + String.length s2.
Proof. induction s1 as [|a s1 IH]; simpl; [done|]. by rewrite IH. Qed.

Lemma string_append_inj_tail s1 s2 s : s1 +:+ s = s2 +:+ s → s1 = s2.
Proof.
  revert s2. induction s1 as [|a s1 IH]; intros [|b s2] Heq; simpl in *.
  - done.
  - apply (f_equal String.length) in Heq.
    rewrite !string_length_append in Heq. simpl in Heq.
    rewrite ?string_length_append in Heq. lia.
  - apply (f_equal String.length) in Heq.
    rewrite !string_length_append in Heq. simpl in Heq.
    rewrite ?string_length_append in Heq. lia.
  - injection Heq as Ha Heq. subst b. f_equal. by apply IH.
Qed.

Global Instance new_name_inj name : Inj (=) (=) (new_name name).
Proof.
  intros a b Heq. unfold new_name in Heq.
  apply String.app_inj, String.app_inj in Heq.
  apply string_append_inj_tail in Heq. by apply (inj pretty).
Qed.






















End dedupe_store.

Section dedupe_claims.
Import fs.








(** The session of the help text: the group [two.txt], three different
    digests, renamed to two-1.txt, two-2.txt and two-3.txt; the group
    [one.txt], where two of the three identical copies are deleted
    silently. *)
Example rename_two_txt :
  (λ r, (r_numbers r, new_name "two.txt" <$> r_numbers r))
    <$> dedupeRename "two.txt" sample.two_txt 1 sample.dupes
  = Some ([1; 2; 3], ["two-1.txt"; "two-2.txt"; "two-3.txt"]).
Proof. by vm_compute. Qed.

Example identical_one_txt :
  let idn := dedupeDeleteIdentical "one.txt" sample.one_txt in
  length (deleted idn) = 2 ∧
  o_md5 <$> survivors idn = [sample.H1; sample.H2] ∧
  o_size <$> survivors idn = [6048320; 564374]%Z.
Proof. by vm_compute. Qed.

Example session_of_the_help_text :
  let r := Deduplicate DeduplicateInteractive ["k"; "1"; "r"] sample.dupes in
  g_err r = None ∧
  (map_to_list (g_store r)).*1
  ≡ₚ ["one.txt"; "two-1.txt"; "two-2.txt"; "two-3.txt"].
Proof.
  split; [by vm_compute|].
  apply (bool_decide_unpack _). by vm_compute.
Qed.

End dedupe_claims.

Section command_claims.
Import fs cmd.

Lemma assoc_None {A} k (l : list (string * A)) : k ∉ l.*1 → assoc k l = None.
Proof.
  induction l as [|[k' v] l IH]; simpl; [done|].
  intros [Hk Hl]%not_elem_of_cons. destruct (decide (k' = k)); [done|eauto].
Qed.

Lemma assoc_Some {A} k (l : list (string * A)) :
  k ∈ l.*1 → is_Some (assoc k l).
Proof.
  induction l as [|[k' v] l IH]; simpl; [by intros ?%elem_of_nil|].
  intros [Hk|Hl]%elem_of_cons; destruct (decide (k' = k)); eauto. done.
Qed.

(** [Set] accepts exactly the six mode names. *)
Lemma DeduplicateMode_Set_valid s :
  s ∈ valid_mode_names ↔ ∃ m, DeduplicateMode_Set s = inr m.
Proof.
  unfold DeduplicateMode_Set, valid_mode_names. split.
  - intros [m Hm]%assoc_Some. rewrite Hm. eauto.
  - intros [m Hm]. destruct (decide (s ∈ mode_names.*1)); [done|].
    by rewrite assoc_None in Hm.
Qed.

(** C9: the dedupe command run on two arguments whose first is none of the
    six mode names ends the process with [log.Fatal] (status 1) while it
    parses its arguments: [fs.Deduplicate] is not called, and the remotes,
    the events on them and the mode variable are as before. *)
Theorem dedupe_invalid_mode_fatal (a0 remote : string) (p : Process) :
  a0 ∉ valid_mode_names →
  ∃ p', dedupe.Run [a0; remote] p = Exited 1%Z p' ∧
        p_log p' = p_log p ++ ["Unknown mode for dedupe " +:+ a0] ∧
        p_calls p' = p_calls p ∧
        p_remotes p' = p_remotes p ∧
        p_events p' = p_events p ∧
        p_dedupeMode p' = p_dedupeMode p.
Proof.
  intros Hbad. unfold dedupe.Run, CheckArgs, bind, ret; simpl.
  unfold DeduplicateMode_Set. rewrite assoc_None by done.
  eexists. split; [done|]. by split_and!.
Qed.

Lemma dedupe_invalid_mode_fatal_witness :
  ("bogus" ∉ valid_mode_names) ∧
  ∃ p', dedupe.Run ["bogus"; "drive:dupes"] sample.process = Exited 1%Z p' ∧
        p_log p' = p_log sample.process ++ ["Unknown mode for dedupe bogus"] ∧
        p_calls p' = p_calls sample.process ∧
        p_remotes p' = p_remotes sample.process ∧
        p_events p' = p_events sample.process ∧
        p_dedupeMode p' = p_dedupeMode sample.process.
Proof.
  assert ("bogus" ∉ valid_mode_names) as H
    by (apply (bool_decide_unpack _); vm_compute; exact I).
  split; [exact H|].
  exact (dedupe_invalid_mode_fatal "bogus" "drive:dupes" sample.process H).
Defined.

(** C10: the dedupe command invoked without the flag [--dedupe-mode] and
    with the remote as its only argument, in a process where the mode
    variable still has its initial value: when the remote can be opened,
    [fs.Deduplicate] is called once, on that remote, with the interactive
    mode. *)
Theorem dedupe_default_interactive (remote : string)
    (files : gmap string string) (remotes : gmap string Store)
    (stdin : list string) :
  is_Some (remotes !! remote) →
  p_calls (final (dedupe.Execute None [remote]
                    (start files dedupe.dedupeMode remotes stdin)))
  = [(remote, DeduplicateInteractive)].
Proof.
  intros [st Hst].
  unfold dedupe.Execute, dedupe.Run, CheckArgs, NewFsSrc, cmd.Run, bind, ret.
  simpl. rewrite Hst. simpl.
  by destruct (g_err _).
Qed.

Lemma dedupe_default_interactive_witness :
  is_Some (p_remotes sample.process !! "drive:dupes") ∧
  p_calls (final (dedupe.Execute None ["drive:dupes"]
                    (start ∅ dedupe.dedupeMode (p_remotes sample.process)
                       ["k"; "1"; "r"])))
  = [("drive:dupes", DeduplicateInteractive)].
Proof.
  assert (is_Some (p_remotes sample.process !! "drive:dupes")) as H
    by (vm_compute; eauto).
  split; [exact H|].
  exact (dedupe_default_interactive "drive:dupes" ∅ _ ["k"; "1"; "r"] H).
Defined.

End command_claims.

Section main_claims.
Import fs cmd rclone.

(** C7, as stated, fails: with the host trusting certificate A and the file
    at the well-known path holding certificate B, A is trusted before [main]
    runs and no longer once it has stored the new pool. *)
Lemma root_ca_drops_trusted_certificate :
  let parsePEM := λ pem : string, [pem] in
  let p := start {[ cacert_path := "B" ]} dedupe.dedupeMode ∅ [] in
  let p' := final (main parsePEM (ret None) p) in
  trusted ["A"] p "A" ∧ ¬ trusted ["A"] p' "A" ∧ p_RootCAs p' = Some ["B"].
Proof.
  split_and!.
  - by apply list_elem_of_singleton.
  - by intros Hin%list_elem_of_singleton.
  - done.
Qed.

(** C7, amended: [main] hands to the dispatcher a process in which, when the
    file at the well-known path could be read, RootCAs is a new pool holding
    exactly the certificates parsed from the file, so that a certificate is
    trusted if and only if the file provides it, whatever was trusted
    before; and which, when the file could not be read, is the process
    [main] started in, with nothing logged and the trust store untouched. *)
Theorem main_root_ca (parsePEM : string → list Certificate)
    (execute : M (option Error)) (p : Process) :
  main parsePEM execute p
  = bind execute fatal_on_error (load_cacert parsePEM p) ∧
  match p_files p !! cacert_path with
  | Some pemData =>
      load_cacert parsePEM p = set_RootCAs (parsePEM pemData) p ∧
      p_log (load_cacert parsePEM p) = p_log p ∧
      ∀ hostRoots c,
        trusted hostRoots (load_cacert parsePEM p) c ↔ c ∈ parsePEM pemData
  | None =>
      load_cacert parsePEM p = p
  end.
Proof.
  split; [done|]. unfold load_cacert.
  destruct (p_files p !! cacert_path) as [pemData|]; [|done].
  by split_and!.
Qed.

(** C8, as stated, fails: the run [rclone dedupe --dedupe-mode bogus
    drive:dupes] makes the dispatcher return a usage error, for which the
    table gives status 2, and [main] ends the process with status 1; so does
    the run [rclone dedupe bogus drive:dupes], through [log.Fatal] in the
    command. *)
Lemma exit_code_ignores_error_class :
  let execute := dedupe.Execute (Some "bogus") ["drive:dupes"] in
  let r := main (λ pem, [pem]) execute sample.process in
  let r' := main (λ pem, [pem])
              (dedupe.Execute None ["bogus"; "drive:dupes"]) sample.process in
  (∃ e, execute sample.process = Returned (Some e) sample.process ∧
        err_kind e = ExitUsageError ∧
        table_exit_code (Some e) = 2%Z ∧
        exit_code r = 1%Z ∧
        exit_code r ≠ table_exit_code (Some e)) ∧
  exit_code r' = 1%Z ∧ exit_code r' ≠ exit_code_of ExitUsageError.
Proof. split; [eexists; by split_and!|by split]. Qed.

(** C8, amended: the status [main] ends with depends only on whether the
    dispatcher returned an error: 0 when it returned none, 1 (through
    [log.Fatalf]) when it returned one, of whatever class; a status set by
    an exit inside the dispatcher is kept. *)
Theorem main_exit_code (parsePEM : string → list Certificate)
    (execute : M (option Error)) (p : Process) :
  exit_code (main parsePEM execute p)
  = match execute (load_cacert parsePEM p) with
    | Returned None _ => 0%Z
    | Returned (Some _) _ => 1%Z
    | Exited c _ => c
    end.
Proof.
  unfold main, bind. destruct (execute _) as [[e|] p'|c p']; done.
Qed.

End main_claims.

Section transfer_claims.
Import fs.

Lemma chain_lookup {A} (R : A → A → Prop) l i x y :
  chain R l → l !! i = Some x → l !! S i = Some y → R x y.
Proof.
  intros Hc. revert i. induction Hc as [|a|a b l Hab Hc IH]; intros i Hx Hy.
  - done.
  - by destruct i.
  - destruct i as [|i]; simplify_eq/=; [done|]. by eapply IH.
Qed.

Variables (llr : nat) (answer : nat → AttemptResult) (jitter : nat → Z).






End transfer_claims.

Section backoff_facts.
Import fs.




Lemma delay_rate_limited retry_after k j :
  (retry_after ≤ delay (RateLimited retry_after) k j)%Z ∧
  (jittered k j ≤ delay (RateLimited retry_after) k j)%Z.
Proof. unfold delay. lia. Qed.

End backoff_facts.

(** The scenario "retry then succeed": the backend answers RateLimited with
    retry-after 2s twice, then succeeds. *)
Example retry_then_succeed (jitter : nat → Z) :
  let answer n :=
    if decide (n ≤ 2) then fs.AttemptErr (fs.RateLimited 2000) else fs.AttemptOk in
  let t := fs.run_transfer 10 answer jitter in
  fs.attempts t = 3 ∧ fs.state t = fs.succeeded ∧ (2 * 2000 ≤ fs.waited t)%Z.
Proof.
  simpl. split_and!; [done..|]. unfold fs.run_transfer; simpl.
  pose proof (delay_rate_limited 2000 0 (jitter 1)).
  pose proof (delay_rate_limited 2000 1 (jitter 2)).
  lia.
Qed.


Section lister_claims.
Import fs mount_test.

Lemma memory_backend_missing dirs dir :
  dirs !! dir = None → b_list (memory_backend dirs) dir = inl DirNotFound.
Proof. intros H. cbn [memory_backend b_list]. by rewrite H. Qed.

Lemma memory_backend_present dirs dir es :
  dirs !! dir = Some es →
  GetAll 1 (Start (memory_backend dirs) dir (SetLevel Level1 NewLister))
  = Some (entry_objects es, entry_dirs es, None).
Proof.
  intros H. unfold GetAll, Start, SetLevel.
  cbn [l_start l_level memory_backend b_list]. by rewrite H.
Qed.

Example readRemote_small :
  readRemote 2 small_remote ∅ ""
  = Some (TestOk {[ "a.txt 3"; "z 0"; "d/"; "d/b.txt 3" ]}).
Proof. vm_compute. done. Qed.

(** C6: a lister started, at any level, on a backend that answers
    DirNotFound for the starting path returns no object, no directory and
    the error [ErrorDirNotFound]; [readRemote] recognises it and returns
    with its map as it was, without failing the test.  A start that fails
    with any other error [e] returns [e], which is not the sentinel, and
    [readRemote] then stops the test with [e]. *)
Theorem lister_dir_not_found (f f2 : Backend) (path : string) (level : Level)
    (fuel : nat) (dir : dirMap) (e : ErrorKind) :
  b_list f path = inl DirNotFound →
  b_list f2 path = inl e →
  e ≠ DirNotFound →
  GetAll (S fuel) (Start f path (SetLevel level NewLister))
  = Some ([], [], Some ErrorDirNotFound) ∧
  readRemote (S fuel) f dir path = Some (TestOk dir) ∧
  GetAll (S fuel) (Start f2 path (SetLevel level NewLister))
  = Some ([], [], Some e) ∧
  Some e ≠ Some ErrorDirNotFound ∧
  readRemote (S fuel) f2 dir path = Some (TestFailed e).
Proof.
  intros Hf Hf2 He. split_and!.
  - unfold GetAll, Start, SetLevel. cbn [l_start l_level walk].
    destruct level; by rewrite Hf.
  - cbn [readRemote]. unfold GetAll, Start, SetLevel. cbn [l_start l_level].
    rewrite Hf. by rewrite decide_True.
  - unfold GetAll, Start, SetLevel. cbn [l_start l_level walk].
    destruct level; by rewrite Hf2.
  - unfold ErrorDirNotFound. congruence.
  - cbn [readRemote]. unfold GetAll, Start, SetLevel. cbn [l_start l_level].
    rewrite Hf2. rewrite decide_False; [done|].
    unfold ErrorDirNotFound. congruence.
Qed.

Lemma lister_dir_not_found_witness :
  let f2 := mkBackend (λ _, inl Transient) in
  b_list small_remote "missing" = inl DirNotFound ∧
  b_list f2 "missing" = inl Transient ∧
  Transient ≠ DirNotFound ∧
  GetAll 1 (Start small_remote "missing" (SetLevel Level1 NewLister))
  = Some ([], [], Some ErrorDirNotFound) ∧
  readRemote 1 small_remote ∅ "missing" = Some (TestOk ∅) ∧
  GetAll 1 (Start f2 "missing" (SetLevel Level1 NewLister))
  = Some ([], [], Some Transient) ∧
  Some Transient ≠ Some ErrorDirNotFound ∧
  readRemote 1 f2 ∅ "missing" = Some (TestFailed Transient).
Proof.
  intros f2.
  assert (b_list small_remote "missing" = inl DirNotFound) as H1
    by (vm_compute; reflexivity).
  assert (b_list f2 "missing" = inl Transient) as H2 by reflexivity.
  assert (Transient ≠ DirNotFound) as H3 by discriminate.
  split; [exact H1|]. split; [exact H2|]. split; [exact H3|].
  exact (lister_dir_not_found small_remote f2 "missing" Level1 0 ∅ Transient
           H1 H2 H3).
Defined.

End lister_claims.

Section sync_lemmas.
Import fs.

Lemma plan_lookup mode src dst p :
  plan mode src dst !! p
  = verdict mode src dst (r_objects src !! p) (r_objects dst !! p).
Proof.
  unfold plan. rewrite lookup_merge.
  by destruct (r_objects src !! p), (r_objects dst !! p).
Qed.

Lemma no_errors env mode src dst :
  s_errors (sync env mode src dst) = 0 → failures env mode src dst = ∅.
Proof. apply map_size_empty_iff. Qed.

Lemma failures_empty_ok env mode src dst p :
  failures env mode src dst = ∅ →
  plan mode src dst !! p = Some VTransfer → transfer_ok env p = true.
Proof.
  intros Hf Hp. destruct (transfer_ok env p) eqn:Hok; [done|].
  assert (failures env mode src dst !! p = Some VTransfer) as Hin.
  { unfold failures, scheduled.
    apply map_lookup_filter_Some_2; [|done].
    by apply map_lookup_filter_Some_2. }
  by rewrite Hf, lookup_empty in Hin.
Qed.

Lemma copied_lookup env mode src dst p :
  copied env mode src dst !! p
  = r_objects src !! p ≫= λ s,
      if decide (plan mode src dst !! p = Some VTransfer) then
        if transfer_ok env p then Some (stored env dst s) else None
      else None.
Proof. unfold copied. by rewrite map_lookup_imap. Qed.

Lemma doomed_lookup env mode src dst p :
  failures env mode src dst = ∅ →
  doomed env mode src dst !! p
  = r_objects dst !! p ≫= λ d,
      if decide (plan mode src dst !! p = Some VDelete) then Some d else None.
Proof.
  intros Hf. unfold doomed. rewrite map_lookup_filter.
  destruct (r_objects dst !! p) as [d|]; simpl; [|done].
  destruct (decide (plan mode src dst !! p = Some VDelete)).
  - by rewrite option_guard_True.
  - rewrite option_guard_False; [done|]. by intros [? _].
Qed.

(** The destination after a run without errors, path by path. *)
Lemma sync_dst_lookup env mode src dst p :
  failures env mode src dst = ∅ →
  s_dst (sync env mode src dst) !! p
  = match r_objects src !! p, r_objects dst !! p with
    | Some s, None => Some (stored env dst s)
    | Some s, Some d =>
        if equal_objects src dst s d then Some d else Some (stored env dst s)
    | None, Some d => if decide (mode = ModeSync) then None else Some d
    | None, None => None
    end.
Proof.
  intros Hf. simpl.
  rewrite lookup_union, copied_lookup, lookup_difference, doomed_lookup by done.
  pose proof (failures_empty_ok env mode src dst p Hf) as Hok.
  rewrite plan_lookup in *.
  destruct (r_objects src !! p) as [s|], (r_objects dst !! p) as [d|];
    simpl in *.
  - destruct (equal_objects src dst s d); simpl in *; [done|].
    by rewrite Hok.
  - by rewrite Hok.
  - by destruct (decide (mode = ModeSync)).
  - done.
Qed.

Lemma equal_stored env src dst s :
  is_Some (common_hash src dst) ∨ r_sets_mod_time dst = true →
  equal_objects src dst s (stored env dst s) = true.
Proof.
  intros H. unfold equal_objects.
  destruct (common_hash src dst) as [a|].
  - apply bool_decide_eq_true. by destruct a.
  - destruct H as [[? ?]|Hset]; [done|].
    apply andb_true_iff. split; apply bool_decide_eq_true; [done|].
    unfold stored, window. simpl. rewrite Hset.
    set (t := o_mod_time s). set (q := Z.pos (r_precision dst)).
    pose proof (Z.div_mod t q ltac:(done)).
    pose proof (Z.mod_pos_bound t q ltac:(done)). lia.
Qed.




End sync_lemmas.

Section sync_claims.
Import fs.

Lemma with_objects_id (r : Remote) : with_objects (r_objects r) r = r.
Proof. by destruct r. Qed.

Lemma sync_src_unchanged env mode src dst :
  mode ≠ ModeMove → s_src (sync env mode src dst) = r_objects src.
Proof.
  intros Hm. simpl. unfold moved. rewrite decide_False by done.
  apply map_difference_empty.
Qed.

(** After a sync run without errors every path the source holds is held by
    the destination with an object that compares equal, and the destination
    holds no other path. *)
Lemma second_plan_skips env src dst p :
  failures env ModeSync src dst = ∅ →
  is_Some (common_hash src dst) ∨ r_sets_mod_time dst = true →
  let dst' := with_objects (s_dst (sync env ModeSync src dst)) dst in
  plan ModeSync src dst' !! p = None ∨
  plan ModeSync src dst' !! p = Some VSkip.
Proof.
  intros Hf Heq dst'. rewrite plan_lookup.
  change (r_objects dst') with (s_dst (sync env ModeSync src dst)).
  rewrite sync_dst_lookup by done.
  change (verdict ModeSync src dst') with (verdict ModeSync src dst).
  destruct (r_objects src !! p) as [s|], (r_objects dst !! p) as [d|]; simpl.
  - right. destruct (equal_objects src dst s d) eqn:He; simpl.
    + by rewrite He.
    + by rewrite equal_stored.
  - right. by rewrite equal_stored.
  - by left.
  - by left.
Qed.

Lemma filter_none_empty {A} (P : string * A → Prop) `{!∀ x, Decision (P x)}
    (m : gmap string A) :
  (∀ p x, m !! p = Some x → ¬ P (p, x)) → filter P m = ∅.
Proof.
  intros Hnone. apply map_empty. intros p. apply map_lookup_filter_None.
  destruct (m !! p) eqn:Hp; [right|by left]. intros x [= <-]. by eapply Hnone.
Qed.

(** C3, as stated, fails: when the only transfer of the first run fails for
    good (the backend answers Fatal), the destination is left without the
    object and the second run schedules the transfer again. *)
Lemma sync_twice_after_failure :
  let env := mkEnv 10 0 (λ _ _, AttemptErr Fatal) (λ _ _, 0%Z) in
  let S := mkRemote {[ "a.txt" := mkObject 3 5 "md5-AAA" "sha1-AAA" ]}
             [HashMD5] 1 true in
  let D := mkRemote ∅ [HashMD5] 1 true in
  let r1 := sync env ModeSync S D in
  let r2 := sync env ModeSync (with_objects (s_src r1) S)
              (with_objects (s_dst r1) D) in
  s_errors r1 = 1 ∧ s_transfers r2 = 1 ∧
  ¬ (s_transfers r2 = 0 ∧ s_deletes r2 = 0).
Proof.
  split_and!; [by vm_compute|by vm_compute|].
  intros [H0 _]. by vm_compute in H0.
Qed.

(** The same happens without any failure when the remotes share no hash
    algorithm and the destination's mod_time is not set: the copy carries the
    instant of the upload and compares different from its source. *)
Example sync_twice_without_mod_time :
  let env := mkEnv 10 1000000 (λ _ _, AttemptOk) (λ _ _, 0%Z) in
  let S := mkRemote {[ "a.txt" := mkObject 3 5 "md5-AAA" "sha1-AAA" ]}
             [HashMD5] 1 true in
  let D := mkRemote ∅ [HashSHA1] 1 false in
  let r1 := sync env ModeSync S D in
  let r2 := sync env ModeSync S (with_objects (s_dst r1) D) in
  s_errors r1 = 0 ∧ s_transfers r2 = 1.
Proof. by vm_compute. Qed.

(** C3, amended: when the first sync run ends without error, and the remotes
    share a hash algorithm or the destination has the mod_time of the
    objects written to it set, a second run on what the first left, whatever
    the backend would answer, schedules no transfer and executes no delete,
    and leaves both sides as they were. *)
Theorem sync_idempotent (env env2 : Env) (src dst : Remote) :
  let r1 := sync env ModeSync src dst in
  let r2 := sync env2 ModeSync (with_objects (s_src r1) src)
              (with_objects (s_dst r1) dst) in
  s_errors r1 = 0 →
  is_Some (common_hash src dst) ∨ r_sets_mod_time dst = true →
  s_transfers r2 = 0 ∧ s_deletes r2 = 0 ∧ s_errors r2 = 0 ∧
  s_dst r2 = s_dst r1 ∧ s_src r2 = r_objects src.
Proof.
  intros r1 r2 Herr Heq. apply no_errors in Herr.
  pose proof (λ p, second_plan_skips env src dst p Herr Heq) as Hplan.
  unfold r2, r1 in *. clear r1 r2.
  rewrite (sync_src_unchanged env ModeSync src dst) by done.
  rewrite with_objects_id.
  set (dst' := with_objects (s_dst (sync env ModeSync src dst)) dst) in *.
  assert (scheduled ModeSync src dst' = ∅) as Hsched.
  { apply filter_none_empty. intros p v Hp. simpl. intros ->.
    destruct (Hplan p); congruence. }
  assert (failures env2 ModeSync src dst' = ∅) as Hfail.
  { unfold failures. rewrite Hsched. apply map_filter_empty. }
  assert (doomed env2 ModeSync src dst' = ∅) as Hdoomed.
  { apply filter_none_empty. intros p v Hp. simpl. intros [Hd _].
    destruct (Hplan p); congruence. }
  assert (copied env2 ModeSync src dst' = ∅) as Hcopied.
  { apply map_empty. intros p. rewrite copied_lookup.
    destruct (r_objects src !! p); simpl; [|done].
    rewrite decide_False; [done|]. destruct (Hplan p); congruence. }
  split_and!.
  - simpl. by rewrite Hsched.
  - simpl. rewrite Hdoomed. unfold moved. by rewrite decide_False.
  - simpl. by rewrite Hfail.
  - simpl. rewrite Hcopied, Hdoomed, map_difference_empty.
    by rewrite (left_id_L ∅ (∪)).
  - by apply sync_src_unchanged.
Qed.

Lemma sync_idempotent_witness :
  let r1 := sync sample_env ModeSync sample_src sample_dst in
  let r2 := sync sample_env ModeSync (with_objects (s_src r1) sample_src)
              (with_objects (s_dst r1) sample_dst) in
  s_errors r1 = 0 ∧
  (is_Some (common_hash sample_src sample_dst)
   ∨ r_sets_mod_time sample_dst = true) ∧
  s_transfers r2 = 0 ∧ s_deletes r2 = 0 ∧ s_errors r2 = 0 ∧
  s_dst r2 = s_dst r1 ∧ s_src r2 = r_objects sample_src.
Proof.
  intros r1 r2.
  assert (s_errors r1 = 0) as H1 by (vm_compute; reflexivity).
  assert (is_Some (common_hash sample_src sample_dst)
          ∨ r_sets_mod_time sample_dst = true) as H2 by (right; reflexivity).
  split; [exact H1|]. split; [exact H2|].
  exact (sync_idempotent sample_env sample_env sample_src sample_dst H1 H2).
Defined.




End sync_claims.

(** ** Strings: [Split], [HasSuffix] and the decimal notation *)

Section strings_facts.
Import go_strings.

Lemma bytes_app s1 s2 : bytes (s1 +:+ s2) = bytes s1 ++ bytes s2.
Proof. induction s1 as [|c s1 IH]; simpl; [done|]. by rewrite IH. Qed.

Lemma bytes_inj s1 s2 : bytes s1 = bytes s2 → s1 = s2.
Proof.
  revert s2. induction s1 as [|c s1 IH]; intros [|c2 s2]; simpl; try done.
  intros [= -> H]. f_equal. by apply IH.
Qed.

Lemma bytes_length s : length (bytes s) = String.length s.
Proof. induction s as [|c s IH]; simpl; [done|]. by rewrite IH. Qed.

Lemma Split_nonempty s sep : Split s sep ≠ [].
Proof.
  induction s as [|c s IH]; simpl; [done|].
  destruct (decide (c = sep)); [done|]. by destruct (Split s sep).
Qed.

(** A separator between two strings splits them apart. *)
Lemma Split_app s1 s2 sep :
  Split (s1 +:+ String sep s2) sep = Split s1 sep ++ Split s2 sep.
Proof.
  induction s1 as [|c s1 IH]; simpl.
  - by rewrite decide_True.
  - rewrite IH. destruct (decide (c = sep)); [done|].
    pose proof (Split_nonempty s1 sep). by destruct (Split s1 sep).
Qed.

Lemma Split_no_sep s sep : sep ∉ bytes s → Split s sep = [s].
Proof.
  induction s as [|c s IH]; simpl; [done|].
  intros [Hc Hs]%not_elem_of_cons.
  rewrite decide_False by done. by rewrite IH.
Qed.

Lemma Split_pieces s sep e : e ∈ Split s sep → sep ∉ bytes e.
Proof.
  revert e. induction s as [|c s IH]; simpl; intros e.
  - intros ->%list_elem_of_singleton. apply not_elem_of_nil.
  - destruct (decide (c = sep)) as [->|Hc].
    + intros [->|He]%elem_of_cons; [apply not_elem_of_nil|by apply IH].
    + pose proof (Split_nonempty s sep).
      destruct (Split s sep) as [|h t]; [done|].
      intros [->|He]%elem_of_cons.
      * simpl. apply not_elem_of_cons. split; [done|]. apply IH. by left.
      * apply IH. by right.
Qed.

Lemma Split_Join l sep :
  l ≠ [] → (∀ e, e ∈ l → sep ∉ bytes e) →
  Split (Join l (String sep EmptyString)) sep = l.
Proof.
  induction l as [|e l IH]; [done|]. intros _ Hl.
  destruct l as [|e' l].
  - simpl. apply Split_no_sep, Hl. by left.
  - change (Join (e :: e' :: l) (String sep EmptyString))
      with (e +:+ String sep EmptyString +:+ Join (e' :: l) (String sep EmptyString)).
    change (String sep EmptyString +:+ ?s) with (String sep s).
    rewrite Split_app, Split_no_sep by (apply Hl; by left).
    simpl. f_equal. apply IH; [done|]. intros x Hx. apply Hl. by right.
Qed.

(** Splitting what was joined gives the entries back, the empty string
    standing for no entry at all. *)
Lemma Split_Join_filter l :
  (∀ e, e ∈ l → "|"%char ∉ bytes e) →
  filter (λ e, e ≠ EmptyString) (Split (Join l "|") "|"%char)
  = filter (λ e, e ≠ EmptyString) l.
Proof.
  intros Hl. destruct l as [|e l]; [done|].
  by rewrite (Split_Join (e :: l) "|"%char).
Qed.

Lemma substring_skip p q m :
  String.substring (String.length p) m (p +:+ q) = String.substring 0 m q.
Proof. induction p as [|c p IH]; simpl; [done|]. exact IH. Qed.

Lemma substring_all q : String.substring 0 (String.length q) q = q.
Proof. induction q as [|c q IH]; simpl; [done|]. by rewrite IH. Qed.

Lemma substring_split s n :
  n ≤ String.length s →
  s = String.substring 0 n s
      +:+ String.substring n (String.length s - n) s.
Proof.
  revert n. induction s as [|c s IH]; intros n Hn.
  - by destruct n.
  - destruct n as [|n].
    + cbn [String.substring]. rewrite Nat.sub_0_r.
      change (String.length (String c s)) with (S (String.length s)).
      cbn [String.substring]. by rewrite substring_all.
    + simpl in Hn. simpl.
      change (String c s
              = String c (String.substring 0 n s
                          +:+ String.substring n (String.length s - n) s)).
      f_equal. apply IH. lia.
Qed.

(** [HasSuffix] decides that the string ends with the suffix. *)
Lemma HasSuffix_spec s suffix :
  HasSuffix s suffix = true ↔ ∃ p, s = p +:+ suffix.
Proof.
  unfold HasSuffix. rewrite andb_true_iff, !bool_decide_eq_true. split.
  - intros [Hlen Hsub].
    exists (String.substring 0 (String.length s - String.length suffix) s).
    pose proof (substring_split s (String.length s - String.length suffix))
      as Hs.
    replace (String.length s - (String.length s - String.length suffix))
      with (String.length suffix) in Hs by lia.
    rewrite Hsub in Hs. apply Hs. lia.
  - intros [p ->]. rewrite <- !bytes_length, bytes_app, length_app.
    rewrite !bytes_length. split; [lia|].
    replace (String.length p + String.length suffix - String.length suffix)
      with (String.length p) by lia.
    by rewrite substring_skip, substring_all.
Qed.

Lemma HasSuffix_slash s :
  HasSuffix s "/" = true ↔ last (bytes s) = Some "/"%char.
Proof.
  rewrite HasSuffix_spec. split.
  - intros [p ->]. rewrite bytes_app. apply last_snoc.
  - intros Hlast. destruct (bytes s) as [|c l] eqn:Hb using rev_ind;
      [done|clear IHl].
    rewrite last_snoc in Hlast. injection Hlast as ->.
    assert (∃ p, bytes p = l) as [p <-].
    { clear. induction l as [|c l [p <-]]; [by exists EmptyString|].
      by exists (String c p). }
    exists p. apply bytes_inj. by rewrite bytes_app, Hb.
Qed.

Lemma pretty_N_char_digit x : digit (pretty_N_char x).
Proof.
  unfold digit, pretty_N_char.
  repeat case_match; apply (bool_decide_unpack _); vm_compute; exact I.
Qed.

Lemma string_app_assoc s1 s2 s3 : (s1 +:+ s2) +:+ s3 = s1 +:+ (s2 +:+ s3).
Proof. apply bytes_inj. by rewrite !bytes_app, (assoc_L (++)). Qed.

(** The digits [pretty_N_go] puts before its accumulator. *)
Lemma pretty_N_go_shape x s :
  ∃ p, pretty_N_go x s = p +:+ s ∧ Forall digit (bytes p) ∧
       ((0 < x)%N → p ≠ EmptyString).
Proof.
  revert s. induction (N.lt_wf_0 x) as [x _ IH]; intros s.
  assert (x = 0 ∨ 0 < x)%N as [->|Hx] by lia.
  - exists EmptyString. rewrite pretty_N_go_0. split_and!; [done|constructor|lia].
  - rewrite pretty_N_go_step by done.
    destruct (IH (x `div` 10)%N (N.div_lt x 10 Hx eq_refl)
                (String (pretty_N_char (x `mod` 10)) s)) as (p & -> & Hp & _).
    exists (p +:+ String (pretty_N_char (x `mod` 10)) EmptyString).
    split_and!.
    + by rewrite string_app_assoc.
    + rewrite bytes_app. apply Forall_app. split; [done|].
      simpl. constructor; [apply pretty_N_char_digit|constructor].
    + intros _ Hq. apply (f_equal bytes) in Hq. rewrite bytes_app in Hq.
      by destruct (bytes p).
Qed.

(** The decimal notation of an integer: digits, the last byte one of them,
    after a "-" at most. *)
Lemma pretty_Z_shape (z : Z) :
  ∃ sign p d, pretty z = sign +:+ p ∧ (sign = EmptyString ∨ sign = "-") ∧
              Forall digit (bytes p) ∧ last (bytes p) = Some d.
Proof.
  assert (∀ x : positive, ∃ p d, pretty x = p ∧ Forall digit (bytes p) ∧
                                 last (bytes p) = Some d) as Hpos.
  { intros x. unfold pretty, pretty_positive, pretty, pretty_N.
    rewrite decide_False by done.
    destruct (pretty_N_go_shape (N.pos x) EmptyString) as (p & Hp & Hd & Hne).
    assert (p +:+ EmptyString = p) as Hp'.
    { apply bytes_inj. rewrite bytes_app. simpl. by rewrite app_nil_r. }
    rewrite Hp' in Hp. specialize (Hne eq_refl).
    destruct (last (bytes p)) as [d|] eqn:Hlast; [by eauto|].
    apply last_None in Hlast. destruct p; [done|discriminate]. }
  destruct z as [|x|x].
  - exists EmptyString, "0", "0"%char. split_and!; [done|by left| |done].
    simpl. constructor; [|constructor].
    apply (bool_decide_unpack _). vm_compute. exact I.
  - destruct (Hpos x) as (p & d & Hp & ? & ?).
    exists EmptyString, p, d. split_and!; [done|by left|done|done].
  - destruct (Hpos x) as (p & d & Hp & ? & ?).
    exists "-", p, d. split_and!; [|by right|done|done].
    change (pretty (Z.neg x)) with ("-" +:+ pretty x). by rewrite Hp.
Qed.

Lemma digit_not_slash c : digit c → c ≠ "/"%char.
Proof.
  intros Hc ->. revert Hc. unfold digit.
  apply (bool_decide_unpack _). vm_compute. exact I.
Qed.

Lemma digit_not_bar c : digit c → c ≠ "|"%char.
Proof.
  intros Hc ->. revert Hc. unfold digit.
  apply (bool_decide_unpack _). vm_compute. exact I.
Qed.

Lemma last_app_Some {A} (l1 l2 : list A) x :
  last l2 = Some x → last (l1 ++ l2) = Some x.
Proof.
  destruct l2 as [|y l2 _] using rev_ind; [done|].
  rewrite last_snoc. intros [= ->]. by rewrite (assoc_L (++)), last_snoc.
Qed.

(** The entry of an object does not end in "/": [filesOnly] keeps it. *)
Lemma object_entry_file obj : HasSuffix (object_entry obj) "/" = false.
Proof.
  apply not_true_is_false. rewrite HasSuffix_slash. unfold object_entry.
  destruct (pretty_Z_shape obj.2) as (sign & p & d & -> & _ & Hp & Hlast).
  assert (last (bytes (obj.1 +:+ " " +:+ sign +:+ p)) = Some d) as ->.
  { rewrite !bytes_app. by do 3 apply last_app_Some. }
  intros [= ->]. eapply digit_not_slash; [|done].
  rewrite Forall_forall in Hp. apply Hp.
  apply last_Some in Hlast as [l' ->]. apply elem_of_app. right. by left.
Qed.

(** The entry of a directory ends in "/": [filesOnly] drops it. *)
Lemma dir_entry_dir name : HasSuffix (dir_entry name) "/" = true.
Proof. apply HasSuffix_spec. by exists name. Qed.

(** The entry of an object holds a "|" only if the name of the object does. *)
Lemma object_entry_no_bar obj :
  "|"%char ∉ bytes obj.1 → "|"%char ∉ bytes (object_entry obj).
Proof.
  intros Hname. unfold object_entry.
  destruct (pretty_Z_shape obj.2) as (sign & p & d & -> & Hsign & Hp & _).
  rewrite !bytes_app. rewrite !not_elem_of_app. split_and!; [done| | |].
  - simpl. rewrite not_elem_of_cons. split; [done|apply not_elem_of_nil].
  - destruct Hsign as [->| ->]; simpl; [apply not_elem_of_nil|].
    rewrite not_elem_of_cons. split; [done|apply not_elem_of_nil].
  - intros Hbar. rewrite Forall_forall in Hp.
    by eapply digit_not_bar; [apply Hp, Hbar|].
Qed.

End strings_facts.

(** ** [fs_test.go]: the maps of directory entries *)

Section dirmap_facts.
Import go_strings mount_test.

Lemma Join_Split s sep : Join (Split s sep) (String sep EmptyString) = s.
Proof.
  induction s as [|c s IH]; simpl; [done|].
  pose proof (Split_nonempty s sep) as Hne.
  destruct (decide (c = sep)) as [->|Hc].
  - destruct (Split s sep) as [|h t]; [done|].
    change (Join (EmptyString :: h :: t) (String sep EmptyString))
      with (String sep (Join (h :: t) (String sep EmptyString))).
    by rewrite IH.
  - destruct (Split s sep) as [|h [|h' t]]; [done|..].
    + simpl in *. by rewrite IH.
    + change (Join (String c h :: h' :: t) (String sep EmptyString))
        with (String c (Join (h :: h' :: t) (String sep EmptyString))).
      by rewrite IH.
Qed.

Lemma wrap_Join l : l ≠ [] → "|" +:+ Join l "|" = wrap l.
Proof.
  induction l as [|e l IH]; [done|]. intros _. destruct l as [|e' l].
  - change (wrap [e]) with ("|" +:+ e +:+ EmptyString).
    change (Join [e] "|") with e.
    apply bytes_inj. rewrite !bytes_app. simpl. by rewrite app_nil_r.
  - change (Join (e :: e' :: l) "|") with (e +:+ "|" +:+ Join (e' :: l) "|").
    rewrite IH by done. done.
Qed.

Lemma wrap_app l1 l2 : wrap (l1 ++ l2) = wrap l1 +:+ wrap l2.
Proof.
  induction l1 as [|e l1 IH]; [done|].
  change (wrap ((e :: l1) ++ l2)) with ("|" +:+ e +:+ wrap (l1 ++ l2)).
  change (wrap (e :: l1)) with ("|" +:+ e +:+ wrap l1).
  rewrite IH. apply bytes_inj. rewrite !bytes_app. by rewrite !(assoc_L (++)).
Qed.

Lemma newDirMap_fold (acc : dirMap) l :
  foldl (λ dm entry, if decide (entry ≠ EmptyString) then {[ entry ]} ∪ dm
                     else dm) acc l
  = list_to_set (filter (λ e, e ≠ EmptyString) l) ∪ acc.
Proof.
  revert acc. induction l as [|e l IH]; intros acc; simpl.
  - by rewrite (left_id_L ∅ (∪)).
  - rewrite IH, filter_cons. destruct (decide (e ≠ EmptyString)); [|done].
    rewrite list_to_set_cons.
    rewrite (assoc_L (∪)). f_equal. apply (comm_L (∪)).
Qed.

(** [newDirMap] holds the pieces of the string that are not empty. *)
Lemma newDirMap_spec s :
  newDirMap s
  = list_to_set (filter (λ e, e ≠ EmptyString) (Split s "|"%char)).
Proof.
  unfold newDirMap. by rewrite newDirMap_fold, (right_id_L ∅ (∪)).
Qed.

Lemma filesOnly_fold (acc : dirMap) l x :
  x ∈ foldl (λ newDm name, if HasSuffix name "/" then newDm
                           else {[ name ]} ∪ newDm) acc l
  ↔ x ∈ acc ∨ (x ∈ l ∧ HasSuffix x "/" = false).
Proof.
  revert acc. induction l as [|e l IH]; intros acc; simpl.
  - split; [by left|]. intros [?|[[]%elem_of_nil _]]. done.
  - rewrite IH, elem_of_cons. destruct (HasSuffix e "/") eqn:He.
    + split; [intros [?|[? ?]]; auto|].
      intros [?|[[->|?] Hx]]; auto. congruence.
    + rewrite elem_of_union, elem_of_singleton. split.
      * intros [[->|?]|[? ?]]; auto.
      * intros [?|[[->|?] ?]]; auto.
Qed.

(** [filesOnly] keeps the names that do not end in "/". *)
Lemma filesOnly_spec dm x :
  x ∈ filesOnly dm ↔ x ∈ dm ∧ HasSuffix x "/" = false.
Proof.
  unfold filesOnly. rewrite filesOnly_fold, elem_of_elements.
  split; [intros [[]%elem_of_empty|?]; done|by right].
Qed.

(** X1: [newDirMap] undoes the joining of entries with "|": for entries that
    hold no "|", the map made from their joined string is the set of the
    entries that are not empty, whatever their order and however often
    each occurs. *)
Theorem newDirMap_Join (l : list string) :
  (∀ e, e ∈ l → "|"%char ∉ bytes e) →
  newDirMap (Join l "|") = list_to_set (filter (λ e, e ≠ EmptyString) l).
Proof.
  intros Hl. by rewrite newDirMap_spec, Split_Join_filter.
Qed.

Lemma newDirMap_Join_witness :
  let l := ["b 2"; EmptyString; "d/"; "a 1"; "b 2"] in
  (∀ e, e ∈ l → "|"%char ∉ bytes e) ∧
  newDirMap (Join l "|") = list_to_set (filter (λ e, e ≠ EmptyString) l).
Proof.
  intros l.
  assert (∀ e, e ∈ l → "|"%char ∉ bytes e) as H.
  { apply Forall_forall. apply (bool_decide_unpack _). vm_compute. exact I. }
  split; [exact H|].
  exact (newDirMap_Join l H).
Defined.

(** X2: the map of two strings put together with a "|" between them is the
    union of their maps. *)
Theorem newDirMap_union (s1 s2 : string) :
  newDirMap (s1 +:+ "|" +:+ s2) = newDirMap s1 ∪ newDirMap s2.
Proof.
  rewrite !newDirMap_spec.
  change ("|" +:+ s2) with (String "|"%char s2).
  by rewrite Split_app, filter_app, list_to_set_app_L.
Qed.

(** X3: the entries of [newDirMap s] are exactly the strings that are not
    empty, hold no "|", and stand in [s] between two separators (the two
    ends of [s] counting as separators). *)
Theorem newDirMap_elem (s e : string) :
  e ∈ newDirMap s
  ↔ e ≠ EmptyString ∧ ("|"%char ∉ bytes e) ∧
    ∃ l r, "|" +:+ s +:+ "|" = l +:+ "|" +:+ e +:+ "|" +:+ r.
Proof.
  rewrite newDirMap_spec, elem_of_list_to_set, list_elem_of_filter. split.
  - intros [He Hin]. split; [done|]. split; [by eapply Split_pieces|].
    apply list_elem_of_split in Hin as (l1 & l2 & Hsplit).
    exists (wrap l1).
    assert (∃ r, wrap l2 +:+ "|" = "|" +:+ r) as [r Hr].
    { destruct l2 as [|x l2]; [by exists EmptyString|].
      exists (x +:+ wrap l2 +:+ "|").
      change (wrap (x :: l2)) with ("|" +:+ x +:+ wrap l2).
      apply bytes_inj. rewrite !bytes_app. by rewrite <- !(assoc_L (++)). }
    exists r. rewrite <- Hr.
    rewrite <- (Join_Split s "|"%char) at 1. rewrite Hsplit.
    transitivity (wrap (l1 ++ e :: l2) +:+ "|").
    + rewrite <- wrap_Join by (by destruct l1).
      apply bytes_inj. rewrite !bytes_app. by rewrite <- !(assoc_L (++)).
    + rewrite wrap_app.
      change (wrap (e :: l2)) with ("|" +:+ e +:+ wrap l2).
      apply bytes_inj. rewrite !bytes_app. by rewrite <- !(assoc_L (++)).
  - intros (He & Hbar & l & r & Heq). split; [done|].
    apply (f_equal (λ x, Split x "|"%char)) in Heq.
    change ("|" +:+ s +:+ "|")
      with (String "|"%char (s +:+ String "|"%char EmptyString)) in Heq.
    change ("|" +:+ e +:+ "|" +:+ r)
      with (String "|"%char (e +:+ String "|"%char r)) in Heq.
    rewrite !Split_app in Heq. rewrite (Split_no_sep e) in Heq by done.
    cbn [Split] in Heq. rewrite decide_True in Heq by done.
    rewrite Split_app in Heq.
    assert (e ∈ EmptyString :: Split s "|"%char ++ Split EmptyString "|"%char)
      as Hin.
    { rewrite Heq. apply elem_of_app. right. by left. }
    apply elem_of_cons in Hin as [->|Hin]; [done|].
    apply elem_of_app in Hin as [Hin|Hin]; [done|].
    apply list_elem_of_singleton in Hin. done.
Qed.

(** X4: [filesOnly] only drops names, dropping them once is enough, and the
    files of a union are the files of its parts. *)
Theorem filesOnly_algebra (dm1 dm2 : dirMap) :
  filesOnly dm1 ⊆ dm1 ∧
  filesOnly (filesOnly dm1) = filesOnly dm1 ∧
  filesOnly (dm1 ∪ dm2) = filesOnly dm1 ∪ filesOnly dm2.
Proof.
  split_and!.
  - intros x. rewrite filesOnly_spec. tauto.
  - apply set_eq. intros x. rewrite !filesOnly_spec. tauto.
  - apply set_eq. intros x.
    rewrite elem_of_union, !filesOnly_spec, elem_of_union. tauto.
Qed.

(** X5: of the entries [readRemote] writes, [filesOnly] keeps those of the
    objects and drops those of the directories. *)
Theorem filesOnly_entries (ds : list string) (objs : list (string * Z))
    (dm : dirMap) :
  filesOnly (list_to_set (dir_entry <$> ds)
             ∪ list_to_set (object_entry <$> objs) ∪ dm)
  = list_to_set (object_entry <$> objs) ∪ filesOnly dm.
Proof.
  apply set_eq. intros x.
  rewrite elem_of_union, !filesOnly_spec, !elem_of_union,
    !elem_of_list_to_set, !list_elem_of_fmap. split.
  - intros [[[(d & -> & _)|Hobj]|Hdm] Hx]; [|by left|by right].
    by rewrite dir_entry_dir in Hx.
  - intros [(obj & -> & Hobj)|[Hdm Hx]]; [|by auto].
    split; [|apply object_entry_file]. left. right. by exists obj.
Qed.

End dirmap_facts.

(** ** [fs_test.go]: [readRemote] *)

Section readRemote_facts.
Import go_strings mount_test.

Lemma readRemote_listed fuel f dir path es :
  b_list f path = inr es →
  readRemote (S fuel) f dir path
  = loop fuel f
      (Some (TestOk (list_to_set (object_entry <$> entry_objects es) ∪ dir)))
      (entry_dirs es).
Proof.
  intros Hf. cbn [readRemote]. unfold GetAll, Start, SetLevel.
  cbn [l_start l_level]. rewrite Hf. rewrite decide_False by done.
  unfold loop. f_equal. f_equal. f_equal.
  generalize (entry_objects es). clear. intros objs. revert dir.
  induction objs as [|obj objs IH]; intros dir; simpl.
  - by rewrite (left_id_L ∅ (∪)).
  - rewrite IH. unfold object_entry.
    rewrite (assoc_L (∪)). f_equal. apply (comm_L (∪)).
Qed.

Lemma readRemote_error fuel f dir path e :
  b_list f path = inl e →
  readRemote (S fuel) f dir path
  = if decide (e = DirNotFound) then Some (TestOk dir)
    else Some (TestFailed e).
Proof.
  intros Hf. cbn [readRemote]. unfold GetAll, Start, SetLevel.
  cbn [l_start l_level]. rewrite Hf. unfold ErrorDirNotFound.
  destruct (decide (e = DirNotFound)) as [->|He].
  - by rewrite decide_True.
  - rewrite decide_False; [done|congruence].
Qed.

Lemma loop_cons fuel f acc d ds :
  loop fuel f (Some (TestOk acc)) (d :: ds)
  = loop fuel f (readRemote fuel f ({[ dir_entry d ]} ∪ acc) d) ds.
Proof. done. Qed.

Lemma loop_app fuel f r ds1 ds2 :
  loop fuel f r (ds1 ++ ds2) = loop fuel f (loop fuel f r ds1) ds2.
Proof. apply foldl_app. Qed.

(** A test that has failed, or a reading that did not end, stays so. *)
Lemma loop_stuck fuel f r ds :
  (∀ dir, r ≠ Some (TestOk dir)) → loop fuel f r ds = r.
Proof.
  intros Hr. induction ds as [|d ds IH]; [done|].
  simpl. destruct r as [[dir|e]|]; [by destruct (Hr dir)|exact IH..].
Qed.

Lemma readRemote_nothing fuel f dir d :
  nothing_in f d → readRemote (S fuel) f dir d = Some (TestOk dir).
Proof.
  intros [Hd|Hd].
  - by rewrite (readRemote_error _ _ _ _ _ Hd), decide_True.
  - rewrite (readRemote_listed _ _ _ _ _ Hd). simpl.
    by rewrite (left_id_L ∅ (∪)).
Qed.

Lemma loop_nothing fuel f acc ds :
  (∀ d, d ∈ ds → nothing_in f d) →
  loop (S fuel) f (Some (TestOk acc)) ds
  = Some (TestOk (list_to_set (dir_entry <$> ds) ∪ acc)).
Proof.
  revert acc. induction ds as [|d ds IH]; intros acc Hds.
  - simpl. by rewrite (left_id_L ∅ (∪)).
  - rewrite loop_cons, readRemote_nothing by (apply Hds; by left).
    rewrite IH by (intros d' Hd'; apply Hds; by right).
    rewrite fmap_cons, list_to_set_cons.
    f_equal. f_equal. rewrite !(assoc_L (∪)). f_equal. apply (comm_L (∪)).
Qed.

(** More fuel does not change what a reading returned. *)
Lemma readRemote_fuel_S fuel f dir path r :
  readRemote fuel f dir path = Some r →
  readRemote (S fuel) f dir path = Some r.
Proof.
  revert dir path r. induction fuel as [|fuel IH]; intros dir path r; [done|].
  destruct (b_list f path) as [e|es] eqn:Hf.
  - by rewrite !(readRemote_error _ _ _ _ _ Hf).
  - rewrite !(readRemote_listed _ _ _ _ _ Hf).
    generalize (list_to_set (object_entry <$> entry_objects es) ∪ dir).
    generalize (entry_dirs es). clear dir es Hf.
    intros ds. induction ds as [|d ds IHds]; intros acc; [done|].
    rewrite !loop_cons.
    destruct (readRemote fuel f ({[dir_entry d]} ∪ acc) d) as [r'|] eqn:Hd.
    + rewrite (IH _ _ _ Hd). destruct r' as [acc'|e]; [apply IHds|].
      by rewrite !loop_stuck by done.
    + by rewrite loop_stuck by done.
Qed.

Lemma readRemote_fuel_le n m f dir path r :
  n ≤ m → readRemote n f dir path = Some r → readRemote m f dir path = Some r.
Proof.
  induction 1 as [|m _ IH]; [done|].
  intros Hn. by apply readRemote_fuel_S, IH.
Qed.

Lemma grown_refl dir : grown dir dir.
Proof. split; [done|]. intros x Hx. by left. Qed.

Lemma grown_trans d1 d2 d3 : grown d1 d2 → grown d2 d3 → grown d1 d3.
Proof.
  intros [H12 K12] [H23 K23]. split; [by transitivity d2|].
  intros x Hx. destruct (K23 x Hx) as [Hx2|Hx2]; [|by right].
  apply K12, Hx2.
Qed.

Lemma grown_dir d dir : grown dir ({[ dir_entry d ]} ∪ dir).
Proof.
  split; [apply union_subseteq_r|].
  intros x [->%elem_of_singleton|Hx]%elem_of_union; [|by left].
  right. right. by exists d.
Qed.

Lemma grown_objects objs dir :
  grown dir (list_to_set (object_entry <$> objs) ∪ dir).
Proof.
  split; [apply union_subseteq_r|].
  intros x [Hx|Hx]%elem_of_union; [|by left].
  apply elem_of_list_to_set, list_elem_of_fmap in Hx as (obj & -> & _).
  right. left. by exists obj.
Qed.

(** X6: a reading that ends well returns the map it was given with
    entries added: nothing is taken out of the map, and each new entry is
    the entry of an object ("name size") or of a directory ("name/"). *)
Theorem readRemote_grows (fuel : nat) (f : Backend) (dir dir' : dirMap)
    (path : string) :
  readRemote fuel f dir path = Some (TestOk dir') →
  dir ⊆ dir' ∧
  ∀ x, x ∈ dir' →
    x ∈ dir ∨ (∃ obj, x = object_entry obj) ∨ (∃ name, x = dir_entry name).
Proof.
  change (readRemote fuel f dir path = Some (TestOk dir') → grown dir dir').
  revert dir dir' path.
  induction fuel as [|fuel IH]; intros dir dir' path; [done|].
  destruct (b_list f path) as [e|es] eqn:Hf.
  - rewrite (readRemote_error _ _ _ _ _ Hf).
    destruct (decide (e = DirNotFound)); [|done].
    intros [= <-]. apply grown_refl.
  - rewrite (readRemote_listed _ _ _ _ _ Hf). intros Hloop.
    apply (grown_trans _ _ _ (grown_objects (entry_objects es) dir)).
    revert Hloop.
    generalize (list_to_set (object_entry <$> entry_objects es) ∪ dir).
    generalize (entry_dirs es).
    intros ds. induction ds as [|d ds IHds]; intros acc.
    + intros [= <-]. apply grown_refl.
    + rewrite loop_cons.
      destruct (readRemote fuel f ({[dir_entry d]} ∪ acc) d)
        as [[acc'|e]|] eqn:Hd.
      * intros Hloop. apply (grown_trans _ _ _ (grown_dir d acc)).
        apply (grown_trans _ acc'); [by eapply IH|by apply IHds].
      * by rewrite loop_stuck.
      * by rewrite loop_stuck.
Qed.

Lemma readRemote_grows_witness :
  readRemote 2 small_remote {[ "kept" ]} EmptyString
  = Some (TestOk {[ "kept"; "a.txt 3"; "z 0"; "d/"; "d/b.txt 3" ]}) ∧
  {[ "kept" ]} ⊆ ({[ "kept"; "a.txt 3"; "z 0"; "d/"; "d/b.txt 3" ]} : dirMap) ∧
  ∀ x, x ∈ ({[ "kept"; "a.txt 3"; "z 0"; "d/"; "d/b.txt 3" ]} : dirMap) →
    x ∈ ({[ "kept" ]} : dirMap) ∨ (∃ obj, x = object_entry obj)
    ∨ (∃ name, x = dir_entry name).
Proof.
  assert (readRemote 2 small_remote {[ "kept" ]} EmptyString
          = Some (TestOk {[ "kept"; "a.txt 3"; "z 0"; "d/"; "d/b.txt 3" ]}))
    as H.
  { vm_compute. reflexivity. }
  split; [exact H|].
  exact (readRemote_grows 2 small_remote _ _ EmptyString H).
Defined.

(** X7: a reading never fails the test with the sentinel
    [ErrorDirNotFound]: a directory that is not found, at the start or
    below it, is passed over. *)
Theorem readRemote_never_sentinel (fuel : nat) (f : Backend) (dir : dirMap)
    (path : string) (e : ErrorKind) :
  readRemote fuel f dir path = Some (TestFailed e) → e ≠ ErrorDirNotFound.
Proof.
  revert dir path.
  induction fuel as [|fuel IH]; intros dir path; [done|].
  destruct (b_list f path) as [e'|es] eqn:Hf.
  - rewrite (readRemote_error _ _ _ _ _ Hf).
    destruct (decide (e' = DirNotFound)); [done|]. by intros [= <-].
  - rewrite (readRemote_listed _ _ _ _ _ Hf).
    generalize (list_to_set (object_entry <$> entry_objects es) ∪ dir).
    generalize (entry_dirs es).
    intros ds. induction ds as [|d ds IHds]; intros acc; [done|].
    rewrite loop_cons.
    destruct (readRemote fuel f ({[dir_entry d]} ∪ acc) d)
      as [[acc'|e']|] eqn:Hd.
    + apply IHds.
    + rewrite loop_stuck by done. intros [= <-]. by eapply IH.
    + by rewrite loop_stuck.
Qed.

Lemma readRemote_never_sentinel_witness :
  readRemote 3 locked_remote ∅ EmptyString = Some (TestFailed PermissionDenied)
  ∧ PermissionDenied ≠ ErrorDirNotFound.
Proof.
  assert (readRemote 3 locked_remote ∅ EmptyString
          = Some (TestFailed PermissionDenied)) as H
    by (vm_compute; reflexivity).
  split; [exact H|].
  exact (readRemote_never_sentinel 3 locked_remote ∅ EmptyString _ H).
Defined.

(** X8: the reading of a directory whose sub-directories are all empty or
    not found (any more) ends well, with the entries of its objects and of
    its sub-directories added to the map: a sub-directory that cannot be
    found is still written to the map and does not fail the test. *)
Theorem readRemote_one_level (fuel : nat) (f : Backend) (dir : dirMap)
    (path : string) (es : list DirEntry) :
  b_list f path = inr es →
  (∀ d, d ∈ entry_dirs es → nothing_in f d) →
  readRemote (S (S fuel)) f dir path
  = Some (TestOk (list_to_set (dir_entry <$> entry_dirs es)
                  ∪ list_to_set (object_entry <$> entry_objects es) ∪ dir)).
Proof.
  intros Hf Hds. rewrite (readRemote_listed _ _ _ _ _ Hf).
  rewrite loop_nothing by done. by rewrite (assoc_L (∪)).
Qed.

Lemma readRemote_one_level_witness :
  let es := [EntryDir "gone"; EntryObject "a b" 12; EntryDir "empty";
             EntryObject "neg" (-4)] in
  let f := memory_backend {[ EmptyString := es; "empty" := [] ]} in
  b_list f EmptyString = inr es ∧
  (∀ d, d ∈ entry_dirs es → nothing_in f d) ∧
  readRemote 2 f ∅ EmptyString
  = Some (TestOk (list_to_set (dir_entry <$> entry_dirs es)
                  ∪ list_to_set (object_entry <$> entry_objects es) ∪ ∅)).
Proof.
  intros es f.
  assert (b_list f EmptyString = inr es) as H1 by reflexivity.
  assert (∀ d, d ∈ entry_dirs es → nothing_in f d) as H2.
  { intros d Hd. change (entry_dirs es) with ["gone"; "empty"] in Hd.
    apply elem_of_cons in Hd as [->|Hd]; [left; reflexivity|].
    apply list_elem_of_singleton in Hd as ->. right. reflexivity. }
  split; [exact H1|]. split; [exact H2|].
  exact (readRemote_one_level 0 f ∅ EmptyString es H1 H2).
Defined.

(** X9: a listing that fails, with an error other than DirNotFound, in the
    directory read or in the first sub-directory (at any depth) that is not
    read to its end fails the test with that error, for every map the
    reading starts from. *)
Theorem readRemote_fails (f : Backend) (e : ErrorKind) (path : string) :
  fails_at f e path →
  e ≠ DirNotFound →
  ∃ n, ∀ fuel dir, n ≤ fuel →
    readRemote fuel f dir path = Some (TestFailed e).
Proof.
  intros Hfail He.
  induction Hfail as [path Hf|path es ds1 d ds2 Hf Hds Hds1 Hfail [n IH]].
  - exists 1. intros [|fuel] dir Hfuel; [lia|].
    by rewrite (readRemote_error _ _ _ _ _ Hf), decide_False.
  - assert (∃ m, ∀ d' dir, d' ∈ ds1 →
              ∃ dir', readRemote m f dir d' = Some (TestOk dir')) as [m Hm].
    { clear Hds. induction ds1 as [|d1 ds1 IHds1].
      - exists 0. by intros d' dir ?%elem_of_nil.
      - destruct IHds1 as [m1 Hm1]; [intros; apply Hds1; by right|].
        destruct (Hds1 d1) as [m2 Hm2]; [by left|].
        exists (m1 `max` m2). intros d' dir [->|Hd']%elem_of_cons.
        + destruct (Hm2 dir) as [dir' Hdir']. exists dir'.
          eapply readRemote_fuel_le; [|done]. lia.
        + destruct (Hm1 d' dir Hd') as [dir' Hdir']. exists dir'.
          eapply readRemote_fuel_le; [|done]. lia. }
    exists (S (n `max` m)). intros [|fuel] dir Hfuel; [lia|].
    rewrite (readRemote_listed _ _ _ _ _ Hf), Hds, loop_app.
    assert (∃ acc, loop fuel f
              (Some (TestOk (list_to_set (object_entry <$> entry_objects es)
                             ∪ dir))) ds1 = Some (TestOk acc)) as [acc ->].
    { generalize (list_to_set (object_entry <$> entry_objects es) ∪ dir).
      clear Hds Hds1. induction ds1 as [|d1 ds1 IHds1]; intros acc.
      - by exists acc.
      - rewrite loop_cons.
        destruct (Hm d1 ({[dir_entry d1]} ∪ acc)) as [acc' Hacc']; [by left|].
        rewrite (readRemote_fuel_le m fuel _ _ _ _ ltac:(lia) Hacc').
        apply IHds1. intros; apply Hm; by right. }
    rewrite loop_cons, IH by lia. by rewrite loop_stuck.
Qed.

Lemma readRemote_fails_witness :
  fails_at locked_remote PermissionDenied EmptyString ∧
  PermissionDenied ≠ DirNotFound ∧
  ∃ n, ∀ fuel dir, n ≤ fuel →
    readRemote fuel locked_remote dir EmptyString
    = Some (TestFailed PermissionDenied).
Proof.
  assert (fails_at locked_remote PermissionDenied EmptyString) as H1.
  { apply (fails_below _ _ EmptyString
             [EntryObject "a.txt" 3; EntryDir "c"; EntryDir "d"]
             ["c"] "d" []); [reflexivity|reflexivity| |].
    - intros d' ->%list_elem_of_singleton. exists 2. intros dir.
      eexists. reflexivity.
    - apply (fails_below _ _ "d" [EntryDir "d/e"; EntryObject "d/y" 2]
               [] "d/e" []); [reflexivity|reflexivity| |].
      + intros d' []%elem_of_nil.
      + apply fails_here. reflexivity. }
  assert (PermissionDenied ≠ DirNotFound) as H2 by discriminate.
  split; [exact H1|]. split; [exact H2|].
  exact (readRemote_fails locked_remote PermissionDenied EmptyString H1 H2).
Defined.

(** A listing that failed, or did not end, stays so. *)
Lemma walk_stuck fuel f r ds :
  (∀ x, r ≠ Some (inr x)) →
  foldl (λ acc d,
           match acc with
           | Some (inr (objs, dirs)) =>
               match walk fuel f d with
               | Some (inr (objs', dirs')) =>
                   Some (inr (objs ++ objs', dirs ++ dirs'))
               | r => r
               end
           | r => r
           end) r ds = r.
Proof.
  intros Hr. induction ds as [|d ds IH]; [done|].
  simpl. destruct r as [[e|x]|]; [exact IH|by destruct (Hr x)|exact IH].
Qed.

Ltac set_atoms :=
  rewrite ?fmap_app, ?fmap_cons, ?list_to_set_app_L, ?list_to_set_cons;
  apply set_eq; intros ?; rewrite !elem_of_union; tauto.

(** X10: on a tree that a recursive listing can list to its end, the
    reading ends well and adds to the map exactly the entries of the
    objects and of the directories of the whole tree. *)
Theorem readRemote_whole_tree (fuel : nat) (f : Backend) (dir : dirMap)
    (path : string) (objs : list (string * Z)) (dirs : list string) :
  walk fuel f path = Some (inr (objs, dirs)) →
  readRemote fuel f dir path
  = Some (TestOk (list_to_set (dir_entry <$> dirs)
                  ∪ list_to_set (object_entry <$> objs) ∪ dir)).
Proof.
  revert dir path objs dirs.
  induction fuel as [|fuel IH]; intros dir path objs dirs; [done|].
  cbn [walk]. destruct (b_list f path) as [e|es] eqn:Hf; [done|].
  rewrite (readRemote_listed _ _ _ _ _ Hf). intros Hwalk.
  assert (∀ ds o d A,
    foldl (λ acc d,
             match acc with
             | Some (inr (objs, dirs)) =>
                 match walk fuel f d with
                 | Some (inr (objs', dirs')) =>
                     Some (inr (objs ++ objs', dirs ++ dirs'))
                 | r => r
                 end
             | r => r
             end) (Some (inr (o, d))) ds = Some (inr (objs, dirs)) →
    ∃ eo ed, objs = o ++ eo ∧ dirs = d ++ ed ∧
      loop fuel f (Some (TestOk A)) ds
      = Some (TestOk (list_to_set (dir_entry <$> (ds ++ ed))
                      ∪ list_to_set (object_entry <$> eo) ∪ A))) as Hloop.
  { clear Hwalk Hf es dir.
    intros ds. induction ds as [|d1 ds IHds]; intros o d A.
    - intros [= <- <-]. exists [], []. rewrite !app_nil_r.
      split; [done|]. split; [done|]. simpl. f_equal. f_equal.
      by rewrite !(left_id_L ∅ (∪)).
    - cbn [foldl]. rewrite loop_cons.
      destruct (walk fuel f d1) as [[e|[o1 d1s]]|] eqn:Hd1.
      + by rewrite walk_stuck.
      + intros Hrest. rewrite (IH _ _ _ _ Hd1).
        destruct (IHds _ _ (list_to_set (dir_entry <$> d1s)
                            ∪ list_to_set (object_entry <$> o1)
                            ∪ ({[dir_entry d1]} ∪ A)) Hrest)
          as (eo & ed & -> & -> & ->).
        exists (o1 ++ eo), (d1s ++ ed). rewrite !(assoc_L (++)).
        split; [done|]. split; [done|]. f_equal. f_equal.
        rewrite <- !(assoc_L (++)). set_atoms.
      + by rewrite walk_stuck. }
  destruct (Hloop _ _ _ (list_to_set (object_entry <$> entry_objects es)
                         ∪ dir) Hwalk) as (eo & ed & -> & -> & ->).
  f_equal. f_equal. set_atoms.
Qed.

Lemma readRemote_whole_tree_witness :
  walk 2 small_remote EmptyString
  = Some (inr ([("a.txt", 3%Z); ("z", 0%Z); ("d/b.txt", 3%Z)], ["d"])) ∧
  readRemote 2 small_remote ∅ EmptyString
  = Some (TestOk (list_to_set (dir_entry <$> ["d"])
                  ∪ list_to_set (object_entry
                                 <$> [("a.txt", 3%Z); ("z", 0%Z);
                                      ("d/b.txt", 3%Z)]) ∪ ∅)).
Proof.
  assert (walk 2 small_remote EmptyString
          = Some (inr ([("a.txt", 3%Z); ("z", 0%Z); ("d/b.txt", 3%Z)], ["d"])))
    as H by (vm_compute; reflexivity).
  split; [exact H|].
  exact (readRemote_whole_tree 2 small_remote ∅ EmptyString _ _ H).
Defined.

(** X11: the comparison [checkDir] makes with the remote passes over
    directories: for a remote whose root holds objects (their names
    without "|") and sub-directories that are empty or not found, and an
    expected string that joins the entries of these objects with the
    entries of any directories, the files of the expected map are the files
    of the map read from the remote. *)
Theorem checkDir_remote_files (fuel : nat) (f : Backend)
    (es : list DirEntry) (xs : list string) :
  b_list f EmptyString = inr es →
  (∀ d, d ∈ entry_dirs es → nothing_in f d) →
  (∀ obj, obj ∈ entry_objects es → "|"%char ∉ bytes obj.1) →
  (∀ x, x ∈ xs → "|"%char ∉ bytes x) →
  ∃ remoteDm,
    readRemote (S (S fuel)) f ∅ EmptyString = Some (TestOk remoteDm) ∧
    filesOnly (newDirMap (Join ((dir_entry <$> xs)
                                ++ (object_entry <$> entry_objects es)) "|"))
    = filesOnly remoteDm.
Proof.
  intros Hf Hds Hobjs Hxs. eexists. split.
  { rewrite (readRemote_listed _ _ _ _ _ Hf), loop_nothing by done.
    reflexivity. }
  rewrite newDirMap_spec, Split_Join_filter.
  - rewrite filter_app, list_to_set_app_L.
    apply set_eq. intros x.
    rewrite !filesOnly_spec, !elem_of_union, !elem_of_list_to_set,
      !list_elem_of_filter, !list_elem_of_fmap.
    split.
    + intros [[[_ (d & -> & _)]|[_ Hobj]] Hx].
      * by rewrite dir_entry_dir in Hx.
      * split; [|done]. right. by left.
    + intros [[(d & -> & _)|[(obj & -> & Hobj)|[]%elem_of_empty]] Hx].
      * by rewrite dir_entry_dir in Hx.
      * split; [|done]. right. split; [|by exists obj].
        intros Hempty. apply (f_equal bytes) in Hempty.
        unfold object_entry in Hempty. rewrite !bytes_app in Hempty.
        by apply app_eq_nil in Hempty as [_ Hempty].
  - intros e [(d & -> & Hd)%list_elem_of_fmap
             |(obj & -> & Hobj)%list_elem_of_fmap]%elem_of_app.
    + unfold dir_entry. rewrite bytes_app, not_elem_of_app. split; [by apply Hxs|].
      simpl. rewrite not_elem_of_cons. split; [done|apply not_elem_of_nil].
    + by apply object_entry_no_bar, Hobjs.
Qed.

Lemma checkDir_remote_files_witness :
  let es := [EntryDir "gone"; EntryObject "a b" 12; EntryDir "empty";
             EntryObject "neg" (-4)] in
  let f := memory_backend {[ EmptyString := es; "empty" := [] ]} in
  let xs := ["other"; "gone"] in
  b_list f EmptyString = inr es ∧
  (∀ d, d ∈ entry_dirs es → nothing_in f d) ∧
  (∀ obj, obj ∈ entry_objects es → "|"%char ∉ bytes obj.1) ∧
  (∀ x, x ∈ xs → "|"%char ∉ bytes x) ∧
  ∃ remoteDm,
    readRemote 2 f ∅ EmptyString = Some (TestOk remoteDm) ∧
    filesOnly (newDirMap "other/|gone/|a b 12|neg -4") = filesOnly remoteDm.
Proof.
  intros es f xs.
  assert (b_list f EmptyString = inr es) as H1 by reflexivity.
  assert (∀ d, d ∈ entry_dirs es → nothing_in f d) as H2.
  { intros d Hd. change (entry_dirs es) with ["gone"; "empty"] in Hd.
    apply elem_of_cons in Hd as [->|Hd]; [left; reflexivity|].
    apply list_elem_of_singleton in Hd as ->. right. reflexivity. }
  assert (∀ obj, obj ∈ entry_objects es → "|"%char ∉ bytes obj.1) as H3.
  { apply Forall_forall. apply (bool_decide_unpack _). vm_compute. exact I. }
  assert (∀ x, x ∈ xs → "|"%char ∉ bytes x) as H4.
  { apply Forall_forall. apply (bool_decide_unpack _). vm_compute. exact I. }
  split; [exact H1|]. split; [exact H2|]. split; [exact H3|].
  split; [exact H4|].
  exact (checkDir_remote_files 0 f es xs H1 H2 H3 H4).
Defined.

End readRemote_facts.

(** ** [fs_test.go]: the life cycle of the mount *)

Section lifecycle_facts.
Import mount_test.

(** X12: a mount that fails makes the run skip: [mount] still returns, its
    last line of log being "mount OK", with [skip] set; and [Finalise] then
    neither calls fusermount nor waits for the result of the unmount, but
    cleans the remote and removes the mount directory, and returns. *)
Theorem failed_mount_is_skipped (h : Host) (r : Run) (w : World)
    (err : string) :
  (h_mount h).2 = Some err →
  ∃ r' w1 w2,
    mount h r w = Done r' w1 ∧
    skip r' = true ∧
    mountPath r' = mountPath r ∧
    w_log w1 = w_log w ++ [LogMount (mountPath r); LogMountFailed err;
                           LogMountOK] ∧
    Finalise h r' w1 = Done tt w2 ∧
    w_trace w2 = w_trace w ++ [ActMount (mountPath r); ActCleanRemote;
                               ActRemoveAll (mountPath r)].
Proof.
  intros Herr. destruct (h_RemoveAll h) as [e|] eqn:Hra.
  all: eexists _, _, _; split;
    [unfold mount, tbind, logf, act, tret; rewrite Herr; reflexivity|].
  all: cbn [skip mountPath w_log w_trace].
  all: split; [done|]; split; [done|].
  all: split; [by rewrite <- !(assoc_L (++))|].
  all: unfold Finalise, umount, tbind, logf, act, tret.
  all: cbn [skip mountPath w_log w_trace]; rewrite Hra.
  all: split; [reflexivity|].
  all: cbn [w_log w_trace]; by rewrite <- !(assoc_L (++)).
Qed.

Lemma failed_mount_is_skipped_witness :
  let h := host_without_fuse in
  let r := mkRun "/tmp/rclonefs-mount1" false None in
  let w := mkWorld [] [ActRandomRemote; ActMkdir; ActTempDir] in
  (h_mount h).2 = Some "fusermount: not found" ∧
  ∃ r' w1 w2,
    mount h r w = Done r' w1 ∧
    skip r' = true ∧
    mountPath r' = mountPath r ∧
    w_log w1 = w_log w ++ [LogMount (mountPath r);
                           LogMountFailed "fusermount: not found";
                           LogMountOK] ∧
    Finalise h r' w1 = Done tt w2 ∧
    w_trace w2 = w_trace w ++ [ActMount (mountPath r); ActCleanRemote;
                               ActRemoveAll (mountPath r)].
Proof.
  intros h r w.
  assert ((h_mount h).2 = Some "fusermount: not found") as H by reflexivity.
  split; [exact H|].
  exact (failed_mount_is_skipped h r w "fusermount: not found" H).
Defined.




(** An unmount that fails ends the run with status 1, the remote not
    cleaned and the mount directory not removed. *)
Example TestMain_umount_fails :
  ∃ w, TestMain host_umount_fails (mkWorld [] []) = Exit 1 w ∧
       w_trace w = [ActRandomRemote; ActMkdir; ActTempDir;
                    ActMount "/tmp/rclonefs-mount1"; ActRunTests;
                    ActFusermount "/tmp/rclonefs-mount1"; ActReceive] ∧
       last (w_log w) = Some (LogUmountFailed "device busy").
Proof. vm_compute. eexists. split; [reflexivity|]. split; reflexivity. Qed.

End lifecycle_facts.

(** ** The [dedupe] command: its arguments *)

Section command_facts.
Import fs cmd.

(** X14: run on a mode and a remote that can be opened, the command stores
    the mode in [dedupeMode], whatever the flag or an earlier run had left
    there, and calls [fs.Deduplicate] once, on the remote, with that
    mode. *)
Theorem dedupe_mode_argument (a0 remote : string) (m : DeduplicateMode)
    (p : Process) :
  DeduplicateMode_Set a0 = inr m →
  is_Some (p_remotes p !! remote) →
  p_calls (final (dedupe.Run [a0; remote] p)) = p_calls p ++ [(remote, m)] ∧
  p_dedupeMode (final (dedupe.Run [a0; remote] p)) = m.
Proof.
  intros Hset [st Hst].
  unfold dedupe.Run, CheckArgs, NewFsSrc, cmd.Run, bind, ret; simpl.
  rewrite Hset. simpl. rewrite Hst. simpl.
  by destruct (g_err _).
Qed.

Lemma dedupe_mode_argument_witness :
  let p := start ∅ DeduplicateSkip (p_remotes sample.process) [] in
  DeduplicateMode_Set "rename" = inr DeduplicateRename ∧
  is_Some (p_remotes p !! "drive:dupes") ∧
  p_calls (final (dedupe.Run ["rename"; "drive:dupes"] p))
  = p_calls p ++ [("drive:dupes", DeduplicateRename)] ∧
  p_dedupeMode (final (dedupe.Run ["rename"; "drive:dupes"] p))
  = DeduplicateRename.
Proof.
  intros p.
  assert (DeduplicateMode_Set "rename" = inr DeduplicateRename) as H1
    by (vm_compute; reflexivity).
  assert (is_Some (p_remotes p !! "drive:dupes")) as H2
    by (vm_compute; eauto).
  split; [exact H1|]. split; [exact H2|].
  exact (dedupe_mode_argument "rename" "drive:dupes" DeduplicateRename p H1 H2).
Defined.

(** X15: run on one argument, the command takes it for the remote, also
    when it is the name of a mode: [dedupeMode] is left as it is; a remote
    that can be opened is deduplicated once with the mode [dedupeMode]
    holds, and one that cannot ends the process with status 1 before any
    call of [fs.Deduplicate]. *)
Theorem dedupe_single_argument (a : string) (p : Process) :
  let r := dedupe.Run [a] p in
  p_dedupeMode (final r) = p_dedupeMode p ∧
  (is_Some (p_remotes p !! a) →
   p_calls (final r) = p_calls p ++ [(a, p_dedupeMode p)]) ∧
  (p_remotes p !! a = None →
   exit_code r = 1%Z ∧ p_calls (final r) = p_calls p ∧
   p_remotes (final r) = p_remotes p).
Proof.
  unfold dedupe.Run, CheckArgs, NewFsSrc, cmd.Run, bind, ret; simpl.
  destruct (p_remotes p !! a) as [st|] eqn:Hst; simpl.
  - destruct (g_err _); simpl; (split_and!; [done|done|done]).
  - split_and!; [done|by intros [? ?]|done].
Qed.

End command_facts.
